(** * Lazy graph exploration over a triple source

    A shallow embedding of the exploration engine of the HDT graph
    discovery demo: the general graph browser ([GraphBrowser]), the
    single-predicate traversal ([SpecializedGraphBrowser]), the
    bookmark store with its focus registry ([BookmarkStore]), the
    abbreviation of IRIs for display ([Display]) and the projection of
    the two node maps to tree items ([GraphBrowserView],
    [SpecializedView]).

    JavaScript strings are modelled as [string]; the default order of
    [Array.prototype.sort] (code-unit lexicographic order) is
    [String.le].  A JavaScript [Map] keyed by strings is a [gmap]: the
    insertion order of a [Map] is observable only through iteration, and
    every iteration embedded here (the merge loop of the write-back) is
    insensitive to it, see [mergeEntries_union]. *)

From stdpp Require Import gmap strings pretty list sorting fin_maps.

(** ** Outcome of a call that may throw *)

Inductive Result (A : Type) : Type :=
  | Ok (a : A)
  | Threw.
Arguments Ok {A} a.
Arguments Threw {A}.

#[global] Instance Result_bind : MBind Result := λ A B k r,
  match r with
  | Ok a => k a
  | Threw => Threw
  end.

(** Truthiness of an optional string, as JavaScript's [if (s)]:
    [undefined], [null] and the empty string are falsy. *)
Definition truthy (s : option string) : bool :=
  match s with
  | Some s => negb (String.eqb s "")
  | None => false
  end.

(** ** RDF/JS terms, quads and the pattern-matching triple source *)

Module Rdf.

Inductive TermType : Type :=
  | NamedNode
  | Literal
  | BlankNode
  | VariableTerm
  | DefaultGraph.

#[global] Instance TermType_eq_dec : EqDecision TermType.
Proof. solve_decision. Defined.

(** A term: only [termType] and [value] are read by the browsers;
    [language] and [datatype] distinguish literals that share a
    lexical value. *)
Record Term : Type := mkTerm {
  termType : TermType;
  value : string;
  language : string;
  datatype : string;
}.

#[global] Instance Term_eq_dec : EqDecision Term.
Proof. solve_decision. Defined.

Record Quad : Type := mkQuad {
  subject : Term;
  predicate : Term;
  object : Term;
}.

#[global] Instance Quad_eq_dec : EqDecision Quad.
Proof. solve_decision. Defined.

(** [factory.namedNode(iri)] *)
Definition namedNode (iri : string) : Term :=
  mkTerm NamedNode iri "" "".

Definition literal (v lang : string) : Term :=
  mkTerm Literal v lang "".

Definition blankNode (label : string) : Term :=
  mkTerm BlankNode label "" "".

(** [dataset.match(subject, predicate, object)]: [None] is the [null]
    wildcard.  The call (or the iteration of its result) may throw. *)
Definition TripleSource : Type :=
  option Term → option Term → option Term → Result (list Quad).

Definition termMatches (pat : option Term) (t : Term) : bool :=
  match pat with
  | None => true
  | Some p => bool_decide (p = t)
  end.

Definition quadMatches (s p o : option Term) (q : Quad) : bool :=
  termMatches s (subject q) && termMatches p (predicate q)
  && termMatches o (object q).

(** The triple source of an in-memory list of quads, in list order. *)
Definition ofQuads (qs : list Quad) : TripleSource :=
  λ s p o, Ok (List.filter (quadMatches s p o) qs).

(** A triple source whose every query throws. *)
Definition failing : TripleSource := λ _ _ _, Threw.

End Rdf.

(** ** [Array.prototype.sort] and insertion-ordered sets of strings *)

(** [Array.from(set).sort()] on strings: the default comparison is the
    code-unit lexicographic order, [String.le]. *)
Definition sortStrings (l : list string) : list string :=
  merge_sort String.le l.

(** [set.add(x)] on an insertion-ordered [Set], kept as the list of its
    elements in insertion order. *)
Definition setAdd (acc : list string) (x : string) : list string :=
  if decide (x ∈ acc) then acc else acc ++ [x].

(** The ['in' | 'out'] direction shared by both browsers. *)
Inductive Direction : Type :=
  | DirIn
  | DirOut.

#[global] Instance Direction_eq_dec : EqDecision Direction.
Proof. solve_decision. Defined.

(** ** The general graph browser *)

Module GraphBrowser.

Definition NodeId : Type := string.

Inductive NodeType : Type :=
  | TRoot
  | TIn
  | TOut
  | TPredicate
  | TObject.

#[global] Instance NodeType_eq_dec : EqDecision NodeType.
Proof. solve_decision. Defined.

Record ObjInfo : Type := mkObjInfo {
  oValue : string;
  oIsLiteral : bool;
}.

#[global] Instance ObjInfo_eq_dec : EqDecision ObjInfo.
Proof. solve_decision. Defined.

Record NodeData : Type := mkNodeData {
  type : NodeType;
  iri : string;
  predicate : option string;
  loaded : bool;
  children : option (list NodeId);
  parentType : option Direction;
  isLiteral : option bool;
  literalValue : option string;
  objectInfo : option (list ObjInfo);
  singleLiteralValue : option string;
  parentNodeId : option NodeId;
}.

#[global] Instance NodeData_eq_dec : EqDecision NodeData.
Proof. solve_decision. Defined.

(** The object literals written by the source, fields not mentioned
    there being [undefined]. *)
Definition groupNode (t : NodeType) (i : string) (parent : NodeId) : NodeData :=
  mkNodeData t i None false None None None None None None (Some parent).

Definition predicateNode (i p : string) (d : Direction) (parent : NodeId)
  : NodeData :=
  mkNodeData TPredicate i (Some p) false None (Some d) None None None None
    (Some parent).

Definition objectNode (v : string) (lit : bool) (litValue : option string)
    (parent : NodeId) : NodeData :=
  mkNodeData TObject v None false None None (Some lit) litValue None None
    (Some parent).

Definition rootNode (i : string) : NodeData :=
  mkNodeData TRoot i None false None None None None None None None.

(** [{...node, loaded: true, children}] *)
Definition markLoaded (node : NodeData) (ch : list NodeId) : NodeData :=
  mkNodeData (type node) (iri node) (predicate node) true (Some ch)
    (parentType node) (isLiteral node) (literalValue node)
    (objectInfo node) (singleLiteralValue node) (parentNodeId node).

(** [{...node, objectInfo: objects}] *)
Definition withObjectInfo (node : NodeData) (objects : list ObjInfo)
  : NodeData :=
  mkNodeData (type node) (iri node) (predicate node) (loaded node)
    (children node) (parentType node) (isLiteral node) (literalValue node)
    (Some objects) (singleLiteralValue node) (parentNodeId node).

(** [{...node, loaded: true, singleLiteralValue: v, objectInfo: objects,
     children: []}] *)
Definition collapsed (node : NodeData) (v : string) (objects : list ObjInfo)
  : NodeData :=
  mkNodeData (type node) (iri node) (predicate node) true (Some [])
    (parentType node) (isLiteral node) (literalValue node)
    (Some objects) (Some v) (parentNodeId node).

Definition typeName (t : NodeType) : string :=
  match t with
  | TRoot => "root"
  | TIn => "in"
  | TOut => "out"
  | TPredicate => "predicate"
  | TObject => "object"
  end%string.

(** [getNodeId(type, iri, predicate?, parentNodeId?)] *)
Definition getNodeId (t : NodeType) (i : string)
    (p : option string) (parent : option NodeId) : NodeId :=
  let baseId :=
    match p with
    | Some pr =>
        if truthy p then typeName t +:+ ":" +:+ i +:+ ":" +:+ pr
        else typeName t +:+ ":" +:+ i
    | None => typeName t +:+ ":" +:+ i
    end in
  match parent with
  | Some par => if truthy parent then par +:+ "->" +:+ baseId else baseId
  | None => baseId
  end.

(** The [for (const quad of matches) predicates.add(quad.predicate.value)]
    loop followed by [Array.from(predicates).sort()]. *)
Definition distinctSortedPredicates (matches : list Rdf.Quad) : list string :=
  sortStrings
    (foldl setAdd [] ((λ q, Rdf.value (Rdf.predicate q)) <$> matches)).

Definition loadOutgoingPredicates (dataset : option Rdf.TripleSource)
    (i : string) : Result (list string) :=
  match dataset with
  | None => Ok []
  | Some ds =>
      matches ← ds (Some (Rdf.namedNode i)) None None;
      Ok (distinctSortedPredicates matches)
  end.

Definition loadIncomingPredicates (dataset : option Rdf.TripleSource)
    (i : string) : Result (list string) :=
  match dataset with
  | None => Ok []
  | Some ds =>
      matches ← ds None None (Some (Rdf.namedNode i));
      Ok (distinctSortedPredicates matches)
  end.

Definition retained (t : Rdf.Term) : bool :=
  bool_decide (Rdf.termType t = Rdf.NamedNode)
  || bool_decide (Rdf.termType t = Rdf.Literal).

(** [{ value: quad.object.value,
      isLiteral: quad.object.termType === 'Literal' }] *)
Definition objInfoOf (t : Rdf.Term) : ObjInfo :=
  mkObjInfo (Rdf.value t) (bool_decide (Rdf.termType t = Rdf.Literal)).

(** The counting loop of [loadObjects]: [count] is incremented for
    every quad, retained or not. *)
Fixpoint objectsLoop (limit count : nat) (matches : list Rdf.Quad)
    (objects : list ObjInfo) : list ObjInfo :=
  match matches with
  | [] => objects
  | quad :: rest =>
      if bool_decide (limit ≤ count) then objects
      else
        let objects' :=
          if retained (Rdf.object quad)
          then objects ++ [objInfoOf (Rdf.object quad)]
          else objects in
        objectsLoop limit (S count) rest objects'
  end.

Definition defaultLimit : nat := 100.

Definition loadObjects (dataset : option Rdf.TripleSource)
    (subjectIri predicateIri : string) (limit : nat)
  : Result (list ObjInfo) :=
  match dataset with
  | None => Ok []
  | Some ds =>
      matches ← ds (Some (Rdf.namedNode subjectIri))
                   (Some (Rdf.namedNode predicateIri)) None;
      Ok (objectsLoop limit 0 matches [])
  end.

Fixpoint subjectsLoop (limit count : nat) (matches : list Rdf.Quad)
    (subjects : list string) : list string :=
  match matches with
  | [] => subjects
  | quad :: rest =>
      if bool_decide (limit ≤ count) then subjects
      else
        let subjects' :=
          if bool_decide (Rdf.termType (Rdf.subject quad) = Rdf.NamedNode)
          then subjects ++ [Rdf.value (Rdf.subject quad)]
          else subjects in
        subjectsLoop limit (S count) rest subjects'
  end.

Definition loadSubjects (dataset : option Rdf.TripleSource)
    (objectIri predicateIri : string) (limit : nat)
  : Result (list string) :=
  match dataset with
  | None => Ok []
  | Some ds =>
      matches ← ds None (Some (Rdf.namedNode predicateIri))
                   (Some (Rdf.namedNode objectIri));
      Ok (subjectsLoop limit 0 matches [])
  end.

(** *** [loadNodeChildren]

    The asynchronous function is split where the source splits it:
    [prepare] is everything up to the [setNodes] call (it reads the
    [nodes] snapshot of the closure and runs the query), [commit] is
    the updater function handed to [setNodes], which React applies to
    the state current at write-back time. *)

Inductive Prepared : Type :=
  | NodeNotFound
  | NodeAlreadyLoaded
  | QueryThrew
  | Ready (newNodes : gmap NodeId NodeData) (children : list NodeId).

(** [if (!newNodes.has(id)) newNodes.set(id, node)] *)
Definition setIfAbsent (id : NodeId) (node : NodeData)
    (newNodes : gmap NodeId NodeData) : gmap NodeId NodeData :=
  match newNodes !! id with
  | Some _ => newNodes
  | None => <[id := node]> newNodes
  end.

(** One iteration of the [for (const predicate of predicates)] loops. *)
Definition addPredicateNode (nodeId : NodeId) (i : string) (d : Direction)
    (st : gmap NodeId NodeData * list NodeId) (p : string)
  : gmap NodeId NodeData * list NodeId :=
  let predicateNodeId := getNodeId TPredicate i (Some p) (Some nodeId) in
  (<[predicateNodeId := predicateNode i p d nodeId]> st.1,
   st.2 ++ [predicateNodeId]).

(** [getNodeId('object', obj.value, undefined, nodeId)] *)
Definition objectId (nodeId : NodeId) (obj : ObjInfo) : NodeId :=
  getNodeId TObject (oValue obj) None (Some nodeId).

(** One iteration of the [for (const obj of objects)] loops; [mk] is
    the record built for a fresh object node. *)
Definition addObjectNode (nodeId : NodeId) (mk : ObjInfo → NodeData)
    (st : gmap NodeId NodeData * list NodeId) (obj : ObjInfo)
  : gmap NodeId NodeData * list NodeId :=
  let objectNodeId := objectId nodeId obj in
  (setIfAbsent objectNodeId (mk obj) st.1, st.2 ++ [objectNodeId]).

Definition literalObject (nodeId : NodeId) (obj : ObjInfo) : NodeData :=
  objectNode (oValue obj) true (Some (oValue obj)) nodeId.

Definition mixedObject (nodeId : NodeId) (obj : ObjInfo) : NodeData :=
  objectNode (oValue obj) (oIsLiteral obj)
    (if oIsLiteral obj then Some (oValue obj) else None) nodeId.

Definition subjectObject (nodeId : NodeId) (obj : ObjInfo) : NodeData :=
  mkNodeData TObject (oValue obj) None false None None (Some false) None
    None None (Some nodeId).

(** The out-direction part of the predicate branch, after [loadObjects]
    has returned [objects]. *)
Definition expandObjects (nodeId : NodeId) (node : NodeData)
    (objects : list ObjInfo) : gmap NodeId NodeData * list NodeId :=
  let allLiterals := forallb oIsLiteral objects in
  let st :=
    match objects with
    | [single] =>
        (* [objects.length === 1], and [objects[0]] is [single] *)
        if allLiterals
        then (<[nodeId := collapsed node (oValue single) objects]> ∅, [])
        else foldl (addObjectNode nodeId (mixedObject nodeId)) (∅, []) objects
    | _ =>
        if allLiterals && bool_decide (1 < length objects)
        then foldl (addObjectNode nodeId (literalObject nodeId)) (∅, []) objects
        else foldl (addObjectNode nodeId (mixedObject nodeId)) (∅, []) objects
    end in
  let keep :=
    match st.1 !! nodeId with
    | Some n => bool_decide (is_Some (singleLiteralValue n))
    | None => false
    end in
  if keep then st
  else (<[nodeId := withObjectInfo node objects]> st.1, st.2).

Definition prepare (dataset : option Rdf.TripleSource)
    (nodes : gmap NodeId NodeData) (nodeId : NodeId) : Prepared :=
  match nodes !! nodeId with
  | None => NodeNotFound
  | Some node =>
      if loaded node then NodeAlreadyLoaded
      else
        match type node with
        | TRoot =>
            let inNodeId := getNodeId TIn (iri node) None (Some nodeId) in
            let outNodeId := getNodeId TOut (iri node) None (Some nodeId) in
            Ready (<[outNodeId := groupNode TOut (iri node) nodeId]>
                     (<[inNodeId := groupNode TIn (iri node) nodeId]> ∅))
                  [inNodeId; outNodeId]
        | TOut =>
            match loadOutgoingPredicates dataset (iri node) with
            | Threw => QueryThrew
            | Ok predicates =>
                let st := foldl (addPredicateNode nodeId (iri node) DirOut)
                            (∅, []) predicates in
                Ready st.1 st.2
            end
        | TIn =>
            match loadIncomingPredicates dataset (iri node) with
            | Threw => QueryThrew
            | Ok predicates =>
                let st := foldl (addPredicateNode nodeId (iri node) DirIn)
                            (∅, []) predicates in
                Ready st.1 st.2
            end
        | TPredicate =>
            match predicate node with
            | Some p =>
                if negb (String.eqb (iri node) "") && truthy (predicate node)
                then
                  if bool_decide (parentType node = Some DirOut)
                  then
                    match loadObjects dataset (iri node) p defaultLimit with
                    | Threw => QueryThrew
                    | Ok objects =>
                        let st := expandObjects nodeId node objects in
                        Ready st.1 st.2
                    end
                  else
                    match loadSubjects dataset (iri node) p defaultLimit with
                    | Threw => QueryThrew
                    | Ok subjects =>
                        let st :=
                          foldl (addObjectNode nodeId (subjectObject nodeId))
                            (∅, []) ((λ s, mkObjInfo s false) <$> subjects) in
                        Ready st.1 st.2
                    end
                else Ready ∅ []
            | None => Ready ∅ []
            end
        | TObject =>
            if bool_decide (isLiteral node = Some true)
            then Ready (<[nodeId := markLoaded node []]> ∅) []
            else
              let inNodeId := getNodeId TIn (iri node) None (Some nodeId) in
              let outNodeId := getNodeId TOut (iri node) None (Some nodeId) in
              Ready (setIfAbsent outNodeId (groupNode TOut (iri node) nodeId)
                       (setIfAbsent inNodeId (groupNode TIn (iri node) nodeId) ∅))
                    [inNodeId; outNodeId]
        end
  end.

(** [for (const [childId, childNode] of newNodes.entries())
      updatedNodes.set(childId, childNode)] *)
Definition mergeEntries (newNodes prevNodes : gmap NodeId NodeData)
  : gmap NodeId NodeData :=
  map_fold (λ childId childNode updatedNodes,
              <[childId := childNode]> updatedNodes) prevNodes newNodes.

(** The updater passed to [setNodes]. *)
Definition commit (nodeId : NodeId) (newNodes : gmap NodeId NodeData)
    (ch : list NodeId) (prevNodes : gmap NodeId NodeData)
  : gmap NodeId NodeData :=
  let updatedNodes := mergeEntries newNodes prevNodes in
  match updatedNodes !! nodeId with
  | Some updatedNode =>
      match singleLiteralValue updatedNode with
      | None => <[nodeId := markLoaded updatedNode ch]> updatedNodes
      | Some _ => updatedNodes
      end
  | None => updatedNodes
  end.

(** The write-back of a request prepared earlier, applied to the state
    current when it completes: only a request that reached [setNodes]
    writes. *)
Definition writeBack (request : Prepared) (nodeId : NodeId)
    (prevNodes : gmap NodeId NodeData) : gmap NodeId NodeData :=
  match request with
  | Ready newNodes ch => commit nodeId newNodes ch prevNodes
  | _ => prevNodes
  end.

(** How a call of [loadNodeChildren] ended. *)
Inductive Outcome : Type :=
  | Returned     (* early return: node missing or already loaded *)
  | Committed    (* the updater was handed to [setNodes] *)
  | Caught.      (* a query threw; the [catch] block logged it *)

(** A call whose query phase and write-back are not interleaved with
    any other update: the snapshot is the current state. *)
Definition loadNodeChildrenOutcome (dataset : option Rdf.TripleSource)
    (nodes : gmap NodeId NodeData) (nodeId : NodeId)
  : gmap NodeId NodeData * Outcome :=
  match prepare dataset nodes nodeId with
  | NodeNotFound | NodeAlreadyLoaded => (nodes, Returned)
  | QueryThrew => (nodes, Caught)
  | Ready newNodes ch => (commit nodeId newNodes ch nodes, Committed)
  end.

Definition loadNodeChildren (dataset : option Rdf.TripleSource)
    (nodes : gmap NodeId NodeData) (nodeId : NodeId)
  : gmap NodeId NodeData :=
  (loadNodeChildrenOutcome dataset nodes nodeId).1.

(** The state installed by [handleLoadRoot]; [rootIri] is the trimmed,
    non-empty content of the input field. *)
Definition handleLoadRoot (rootIri : string) : gmap NodeId NodeData :=
  {[ getNodeId TRoot rootIri None None := rootNode rootIri ]}.

(** *** The tests of the tree projector ([buildTreeItem]) that decide
    whether a node's children are rendered at all. *)

Definition isSingleLiteralPredicate (node : NodeData) : bool :=
  bool_decide (type node = TPredicate)
  && bool_decide (is_Some (singleLiteralValue node)).

Definition isLiteralObject (node : NodeData) : bool :=
  bool_decide (type node = TObject) && bool_decide (isLiteral node = Some true).

(** [!isSingleLiteralPredicate && !isLiteralObject] *)
Definition expandable (node : NodeData) : bool :=
  negb (isSingleLiteralPredicate node) && negb (isLiteralObject node).

(** *** States of an exploration session

    The states a session on [rootIri] can reach under any interleaving:
    a request is prepared on some earlier state (the [nodes] snapshot of
    the closure that issued it) and its updater is applied to the state
    current at write-back time. *)
Inductive reachable (rootIri : string) : gmap NodeId NodeData → Prop :=
  | reach_root : reachable rootIri (handleLoadRoot rootIri)
  | reach_writeBack dataset snapshot nodeId prevNodes :
      reachable rootIri snapshot →
      reachable rootIri prevNodes →
      reachable rootIri
        (writeBack (prepare dataset snapshot nodeId) nodeId prevNodes).

(** Every record is stored under the id composed from its own fields. *)
Definition wellKeyed (nodes : gmap NodeId NodeData) : Prop :=
  ∀ k n, nodes !! k = Some n →
    k = getNodeId (type n) (iri n) (predicate n) (parentNodeId n).

(** Every listed child has a record. *)
Definition childrenResolve (nodes : gmap NodeId NodeData) : Prop :=
  ∀ k n ch c, nodes !! k = Some n → children n = Some ch → c ∈ ch →
    is_Some (nodes !! c).

(** Every listed child's id is composed onto the id of its parent. *)
Definition childrenExtend (nodes : gmap NodeId NodeData) : Prop :=
  ∀ k n ch c, nodes !! k = Some n → children n = Some ch → c ∈ ch →
    ∃ t i p, c = getNodeId t i p (Some k).

(** An unloaded record carries neither children nor a collapsed value. *)
Definition unloadedBare (nodes : gmap NodeId NodeData) : Prop :=
  ∀ k n, nodes !! k = Some n → loaded n = false →
    children n = None ∧ singleLiteralValue n = None.

(** A record that carries a collapsed value is a loaded PredicateGroup
    with an empty children list. *)
Definition collapsedTerminal (nodes : gmap NodeId NodeData) : Prop :=
  ∀ k n v, nodes !! k = Some n → singleLiteralValue n = Some v →
    type n = TPredicate ∧ loaded n = true ∧ children n = Some [].

Definition sessionInvariant (nodes : gmap NodeId NodeData) : Prop :=
  wellKeyed nodes ∧ childrenResolve nodes ∧ childrenExtend nodes ∧
  unloadedBare nodes ∧ collapsedTerminal nodes.

(** The two kinds of entries a prepared request holds in [newNodes]: a
    fresh child record of [nodeId], or a replacement for the record of
    [nodeId] itself built from the snapshot's [node]. *)
Definition childEntry (nodeId k : NodeId) (n : NodeData) : Prop :=
  k = getNodeId (type n) (iri n) (predicate n) (Some nodeId) ∧
  parentNodeId n = Some nodeId ∧ loaded n = false ∧ children n = None ∧
  singleLiteralValue n = None.

Definition selfEntry (node : NodeData) (ch : list NodeId) (n : NodeData)
  : Prop :=
  (n = markLoaded node [] ∧ ch = [] ∧ type node = TObject)
  ∨ (∃ v objects, n = collapsed node v objects ∧ ch = []
                  ∧ type node = TPredicate)
  ∨ (∃ objects, n = withObjectInfo node objects ∧ type node = TPredicate).

End GraphBrowser.

(** ** The specialized single-predicate traversal *)

Module SpecializedGraphBrowser.

Record SpecializedNode : Type := mkSpecializedNode {
  iri : string;
  label : option string;
  loaded : bool;
  children : option (list string);
}.

#[global] Instance SpecializedNode_eq_dec : EqDecision SpecializedNode.
Proof. solve_decision. Defined.

Definition rdfsLabel : Rdf.Term :=
  Rdf.namedNode "http://www.w3.org/2000/01/rdf-schema#label".

(** The loop of [loadLabel]: the value of the first literal object. *)
Fixpoint firstLiteral (matches : list Rdf.Quad) : option string :=
  match matches with
  | [] => None
  | quad :: rest =>
      if bool_decide (Rdf.termType (Rdf.object quad) = Rdf.Literal)
      then Some (Rdf.value (Rdf.object quad))
      else firstLiteral rest
  end.

Definition loadLabel (dataset : option Rdf.TripleSource) (i : string)
  : Result (option string) :=
  match dataset with
  | None => Ok None
  | Some ds =>
      matches ← ds (Some (Rdf.namedNode i)) (Some rdfsLabel) None;
      Ok (firstLiteral matches)
  end.

Definition namedValues (pick : Rdf.Quad → Rdf.Term)
    (matches : list Rdf.Quad) : list string :=
  (λ q, Rdf.value (pick q)) <$>
    List.filter (λ q, bool_decide (Rdf.termType (pick q) = Rdf.NamedNode))
      matches.

Definition loadChildren (dataset : option Rdf.TripleSource)
    (predicateIri i : string) : Result (list string) :=
  match dataset with
  | None => Ok []
  | Some ds =>
      matches ← ds (Some (Rdf.namedNode i))
                   (Some (Rdf.namedNode predicateIri)) None;
      Ok (namedValues Rdf.object matches)
  end.

Definition loadParents (dataset : option Rdf.TripleSource)
    (predicateIri i : string) : Result (list string) :=
  match dataset with
  | None => Ok []
  | Some ds =>
      matches ← ds None (Some (Rdf.namedNode predicateIri))
                   (Some (Rdf.namedNode i));
      Ok (namedValues Rdf.subject matches)
  end.

(** [Promise.all(relatedNodes.map(loadLabel))]: rejected as soon as one
    lookup throws. *)
Fixpoint loadLabels (dataset : option Rdf.TripleSource)
    (relatedNodes : list string) : Result (list (option string)) :=
  match relatedNodes with
  | [] => Ok []
  | childIri :: rest =>
      lbl ← loadLabel dataset childIri;
      lbls ← loadLabels dataset rest;
      Ok (lbl :: lbls)
  end.

(** The second updater of [loadNode], run at write-back time. *)
Definition writeBack (i : string) (lbl : option string)
    (relatedNodes : list string) (prevNodes : gmap string SpecializedNode)
  : gmap string SpecializedNode :=
  match prevNodes !! i with
  | Some existing =>
      if loaded existing then prevNodes
      else <[i := mkSpecializedNode i lbl true (Some relatedNodes)]> prevNodes
  | None => <[i := mkSpecializedNode i lbl true (Some relatedNodes)]> prevNodes
  end.

(** Whether that updater took the writing branch (and so scheduled the
    label lookups of the children). *)
Definition writes (i : string) (prevNodes : gmap string SpecializedNode)
  : bool :=
  match prevNodes !! i with
  | Some existing => negb (loaded existing)
  | None => true
  end.

(** One iteration of [labels.forEach((lbl, index) => ...)]. *)
Definition mergeLabel (updatedNodes : gmap string SpecializedNode)
    (entry : string * option string) : gmap string SpecializedNode :=
  let '(childIri, lbl) := entry in
  match updatedNodes !! childIri with
  | Some existing =>
      <[childIri := mkSpecializedNode (iri existing) lbl (loaded existing)
                      (children existing)]> updatedNodes
  | None =>
      <[childIri := mkSpecializedNode childIri lbl false None]> updatedNodes
  end.

(** The record that iteration stores under [childIri]: the existing
    record with its label replaced, or a fresh unloaded one. *)
Definition relabel (childIri : string) (lbl : option string)
    (existing : option SpecializedNode) : SpecializedNode :=
  match existing with
  | Some e => mkSpecializedNode (iri e) lbl (loaded e) (children e)
  | None => mkSpecializedNode childIri lbl false None
  end.

(** The updater run when the children's labels have arrived. *)
Definition mergeLabels (relatedNodes : list string)
    (labels : list (option string))
    (currentNodes : gmap string SpecializedNode)
  : gmap string SpecializedNode :=
  foldl mergeLabel currentNodes (zip relatedNodes labels).

(** A call of [loadNode] that is not interleaved with other updates. *)
Definition loadNode (dataset : option Rdf.TripleSource) (direction : Direction)
    (predicateIri : string) (nodes : gmap string SpecializedNode)
    (i : string) : gmap string SpecializedNode :=
  match dataset with
  | None => nodes
  | Some _ =>
      match loadLabel dataset i,
            (match direction with
             | DirOut => loadChildren dataset predicateIri i
             | DirIn => loadParents dataset predicateIri i
             end) with
      | Ok lbl, Ok relatedNodes =>
          let newNodes := writeBack i lbl relatedNodes nodes in
          if writes i nodes && bool_decide (0 < length relatedNodes)
          then
            match loadLabels dataset relatedNodes with
            | Ok labels => mergeLabels relatedNodes labels newNodes
            | Threw => newNodes
            end
          else newNodes
      | _, _ => nodes
      end
  end.

(** The state installed when the view is opened on [startNodeIri]. *)
Definition initialNodes (startNodeIri : string)
  : gmap string SpecializedNode :=
  {[ startNodeIri := mkSpecializedNode startNodeIri None false None ]}.

(** States of one traversal under any interleaving of the two updaters:
    React applies each updater atomically, in any order of completion,
    with whatever the queries returned. *)
Inductive reachable (startNodeIri : string)
  : gmap string SpecializedNode → Prop :=
  | reach_init : reachable startNodeIri (initialNodes startNodeIri)
  | reach_writeBack nodes i lbl relatedNodes :
      reachable startNodeIri nodes →
      reachable startNodeIri (writeBack i lbl relatedNodes nodes)
  | reach_mergeLabels nodes relatedNodes labels :
      reachable startNodeIri nodes →
      reachable startNodeIri (mergeLabels relatedNodes labels nodes).

(** [direction === 'out' ? loadChildren(iri) : loadParents(iri)] *)
Definition relatedQuery (dataset : option Rdf.TripleSource)
    (direction : Direction) (predicateIri i : string) : Result (list string) :=
  match direction with
  | DirOut => loadChildren dataset predicateIri i
  | DirIn => loadParents dataset predicateIri i
  end.

(** [handleExpandedItemsChange]: the IRIs for which [loadNode] is called
    when the expanded items change from [expandedItems] to [itemIds],
    in call order.  An array is truthy even when empty, so
    [node.children] is tested for presence only. *)
Definition loadsForItem (expandedItems : list string)
    (nodes : gmap string SpecializedNode) (itemId : string) : list string :=
  if bool_decide (itemId ∈ expandedItems) then []
  else
    match nodes !! itemId with
    | Some node =>
        if negb (loaded node) then [itemId]
        else
          match children node with
          | Some ch =>
              List.filter
                (λ childIri,
                   match nodes !! childIri with
                   | Some childNode => negb (loaded childNode)
                   | None => true
                   end) ch
          | None => []
          end
    | None => []
    end.

Definition handleExpandedItemsChange (expandedItems : list string)
    (nodes : gmap string SpecializedNode) (itemIds : list string)
  : list string :=
  itemIds ≫= loadsForItem expandedItems nodes.

(** Every record is stored under its own IRI. *)
Definition keyed (nodes : gmap string SpecializedNode) : Prop :=
  ∀ k node, nodes !! k = Some node → iri node = k.

End SpecializedGraphBrowser.

(** ** The focus registry of the bookmark store *)

Module BookmarkStore.

Inductive Hint : Type :=
  | HintSubject
  | HintPredicate
  | HintObject.

Record Bookmark : Type := mkBookmark {
  iri : string;
  label : option string;
  description : option string;
  hint : option Hint;
  addedAt : Z;
}.

Record State : Type := mkState {
  bookmarks : list Bookmark;
  fieldStates : gmap string string;
  lastFocusedInputId : option string;
}.

(** Zustand's [set] merges the partial state returned by the updater
    into the current state; the fields the updater does not mention
    are kept. *)
Definition setFieldValue (inputId value : string) (state : State) : State :=
  mkState (bookmarks state) (<[inputId := value]> (fieldStates state))
    (lastFocusedInputId state).

Definition setLastFocusedInputId (inputId : option string) (state : State)
  : State :=
  mkState (bookmarks state) (fieldStates state) inputId.

Definition removeField (inputId : string) (state : State) : State :=
  mkState (bookmarks state) (delete inputId (fieldStates state))
    (if bool_decide (lastFocusedInputId state = Some inputId) then None
     else lastFocusedInputId state).

Definition fillFocusedInput (i : string) (state : State) : State :=
  match lastFocusedInputId state with
  | Some focused =>
      if truthy (lastFocusedInputId state)
      then mkState (bookmarks state) (<[focused := i]> (fieldStates state))
             (lastFocusedInputId state)
      else state
  | None => state
  end.

(** *** Bookmarks

    A field of the optional [metadata] argument: the key may be absent,
    or present with a value that may itself be [undefined]. *)
Inductive Field (A : Type) : Type :=
  | Absent
  | Present (v : option A).
Arguments Absent {A}.
Arguments Present {A} v.

Record Metadata : Type := mkMetadata {
  mLabel : Field string;
  mDescription : Field string;
  mHint : Field Hint;
}.

(** [metadata?.key]: reading a key of a possibly missing object. *)
Definition readField {A} (pick : Metadata → Field A)
    (metadata : option Metadata) : option A :=
  match metadata with
  | Some m => match pick m with Present v => v | Absent => None end
  | None => None
  end.

(** [a ?? b] *)
Definition nullish {A} (a b : option A) : option A :=
  match a with
  | Some _ => a
  | None => b
  end.

(** [{...b, ...metadata}]: a key that is present overrides, also with
    [undefined]. *)
Definition spreadField {A} (old : option A) (f : Field A) : option A :=
  match f with
  | Present v => v
  | Absent => old
  end.

(** [addBookmark(iri, metadata)]; [now] is the value of [Date.now()]. *)
Definition addBookmark (now : Z) (i : string) (metadata : option Metadata)
    (state : State) : State :=
  match list_find (λ b, iri b = i) (bookmarks state) with
  | Some (existingIndex, existing) =>
      let updatedBookmarks := delete existingIndex (bookmarks state) in
      let newBookmark :=
        mkBookmark i
          (nullish (readField mLabel metadata) (label existing))
          (nullish (readField mDescription metadata) (description existing))
          (nullish (readField mHint metadata) (hint existing))
          now in
      mkState (newBookmark :: updatedBookmarks) (fieldStates state)
        (lastFocusedInputId state)
  | None =>
      let newBookmark :=
        mkBookmark i (readField mLabel metadata)
          (readField mDescription metadata) (readField mHint metadata) now in
      mkState (newBookmark :: bookmarks state) (fieldStates state)
        (lastFocusedInputId state)
  end.

Definition removeBookmark (i : string) (state : State) : State :=
  mkState (filter (λ b, iri b ≠ i) (bookmarks state)) (fieldStates state)
    (lastFocusedInputId state).

Definition updateBookmark (i : string) (metadata : Metadata) (state : State)
  : State :=
  mkState
    ((λ b, if decide (iri b = i)
           then mkBookmark (iri b) (spreadField (label b) (mLabel metadata))
                  (spreadField (description b) (mDescription metadata))
                  (spreadField (hint b) (mHint metadata)) (addedAt b)
           else b) <$> bookmarks state)
    (fieldStates state) (lastFocusedInputId state).

(** *** The [useBookmark] hook *)

(** [bookmarks.some((b) => b.iri === iri)] *)
Definition isBookmarked (bookmarks : list Bookmark) (i : string) : bool :=
  existsb (λ b, bool_decide (iri b = i)) bookmarks.

(** [bookmarks.find((b) => b.iri === iri)] *)
Definition getBookmark (bookmarks : list Bookmark) (i : string)
  : option Bookmark :=
  snd <$> list_find (λ b, iri b = i) bookmarks.


End BookmarkStore.

(** ** Display labels: [shortenUri]

    The helper is repeated in the source with two tables and two
    fallback lengths; [shortenUriWith] is its body, the instances are
    in the view modules below. *)

Module Display.
Import Stdlib.Strings.Ascii.

Definition isSeparator (c : Ascii.ascii) : bool :=
  bool_decide (c = "/"%char) || bool_decide (c = "#"%char).

(** The characters that [.] does not match in a regular expression
    (of those a string of one-byte characters can hold). *)
Definition isLineTerminator (c : Ascii.ascii) : bool :=
  bool_decide (c = "010"%char) || bool_decide (c = "013"%char).

(** [s.slice(n)] for [0 <= n] *)
Fixpoint dropString (n : nat) (s : string) : string :=
  match n, s with
  | 0, _ => s
  | S n', String _ rest => dropString n' rest
  | S _, EmptyString => EmptyString
  end.

(** The loop over [Object.entries(prefixMap)]: the first prefix the URI
    starts with is replaced; [uri.replace(fullPrefix, shortPrefix)]
    replaces the first occurrence, which is the one at the start. *)
Fixpoint applyPrefix (table : list (string * string)) (uri : string)
  : option string :=
  match table with
  | [] => None
  | (fullPrefix, shortPrefix) :: rest =>
      if String.prefix fullPrefix uri
      then Some (shortPrefix +:+ dropString (String.length fullPrefix) uri)
      else applyPrefix rest uri
  end.

(** The split after the last ['/'] or ['#'] of a string, if it has one. *)
Fixpoint splitAfterLastSeparator (s : string) : option (string * string) :=
  match s with
  | EmptyString => None
  | String c rest =>
      match splitAfterLastSeparator rest with
      | Some (prefix, localName) => Some (String c prefix, localName)
      | None =>
          if isSeparator c then Some (String c EmptyString, rest) else None
      end
  end.

Fixpoint noLineTerminator (s : string) : bool :=
  match s with
  | EmptyString => true
  | String c rest => negb (isLineTerminator c) && noLineTerminator rest
  end.

(** [uri.match(/^(.+[/#])([^/#]+)$/)]: the second group has no separator
    and reaches the end, so the separator matched is the last one; the
    first group needs one character that is not a line terminator
    before it, the second is not empty. *)
Definition regexMatch (uri : string) : option (string * string) :=
  match splitAfterLastSeparator uri with
  | Some (prefix, localName) =>
      if bool_decide (2 ≤ String.length prefix) && noLineTerminator prefix
         && negb (String.eqb localName "")
      then Some (prefix, localName)
      else None
  | None => None
  end.

(** [s.split(sep)] for a one-character separator. *)
Fixpoint splitOn (sep : Ascii.ascii) (s : string) : list string :=
  match s with
  | EmptyString => [EmptyString]
  | String c rest =>
      if bool_decide (c = sep) then EmptyString :: splitOn sep rest
      else
        match splitOn sep rest with
        | h :: t => String c h :: t
        | [] => [String c EmptyString]
        end
  end.

(** [parts[parts.length - 1] || parts[parts.length - 2]] *)
Definition lastPart (parts : list string) : option string :=
  match reverse parts with
  | l :: rest =>
      if truthy (Some l) then Some l
      else match rest with
           | l2 :: _ => Some l2
           | [] => None
           end
  | [] => None
  end.

Definition shortenUriWith (table : list (string * string)) (limit : nat)
    (uri : string) : string :=
  let fallback :=
    if bool_decide (limit < String.length uri)
    then "..." +:+ dropString (String.length uri - limit) uri
    else uri in
  match applyPrefix table uri with
  | Some short => short
  | None =>
      match regexMatch uri with
      | Some (prefix, localName) =>
          match lastPart (splitOn "/" prefix) with
          | Some part =>
              if truthy (Some part) then part +:+ ":" +:+ localName
              else fallback
          | None => fallback
          end
      | None => fallback
      end
  end.


(** [s.includes(sub)] *)
Fixpoint includes (sub s : string) : bool :=
  String.prefix sub s
  || match s with
     | EmptyString => false
     | String _ rest => includes sub rest
     end.

Definition prefixMap : list (string * string) :=
  [("http://www.w3.org/2000/01/rdf-schema#", "rdfs:");
   ("http://www.w3.org/1999/02/22-rdf-syntax-ns#", "rdf:");
   ("http://www.w3.org/2002/07/owl#", "owl:");
   ("http://www.w3.org/2004/02/skos/core#", "skos:");
   ("http://xmlns.com/foaf/0.1/", "foaf:")]%string.

End Display.

(** ** The tree projectors

    [buildTreeItem] recurses through the children lists of the node map
    and has no other bound, so its embedding takes fuel: [None] is a
    call that did not return within [fuel] nested calls, [Some None] is
    the [null] result for an id without record.  String constants with
    non-ASCII characters are written in UTF-8. *)

Module TreeView.

Record PredicateData : Type := mkPredicateData {
  dataPredicate : option string;
  dataSubjectIri : string;
  dataDirection : option Direction;
}.

(** [TreeViewBaseItem], with the extra keys of predicate items. *)
#[warnings="-register-all"]
Inductive TreeItem : Type :=
  | TreeNode (id label : string) (children : option (list TreeItem))
      (data : option PredicateData).

(** The loop [for (const childId of node.children)] that pushes the
    non-null items. *)
Fixpoint collectItems (build : string → option (option TreeItem))
    (ids : list string) : option (list TreeItem) :=
  match ids with
  | [] => Some []
  | id :: rest =>
      match build id with
      | None => None
      | Some item =>
          match collectItems build rest with
          | None => None
          | Some items =>
              Some (match item with
                    | Some it => it :: items
                    | None => items
                    end)
          end
      end
  end.

(** [children.length > 0 ? children : undefined] *)
Definition nonEmpty (items : list TreeItem) : option (list TreeItem) :=
  match items with
  | [] => None
  | _ => Some items
  end.

End TreeView.

Module GraphBrowserView.
Import GraphBrowser.
Import TreeView.

Definition shortenUri : string → string :=
  Display.shortenUriWith Display.prefixMap 60.

(** The label of a node and whether it is rendered as a literal. *)
Definition labelOf (node : NodeData) : string * bool :=
  match type node with
  | TRoot => (shortenUri (iri node), false)
  | TIn => ("← In"%string, false)
  | TOut => ("→ Out"%string, false)
  | TPredicate =>
      let predicateLabel := shortenUri (default ""%string
                                          (if truthy (predicate node)
                                           then predicate node else None)) in
      match singleLiteralValue node with
      | Some v => (predicateLabel +:+ ": " +:+ v, true)
      | None => (predicateLabel, false)
      end
  | TObject =>
      match literalValue node with
      | Some v =>
          if bool_decide (isLiteral node = Some true) && truthy (literalValue node)
          then (v, true)
          else (shortenUri (iri node), false)
      | None => (shortenUri (iri node), false)
      end
  end.

(** The type test guarding the placeholder. *)
Definition mayHaveChildren (node : NodeData) : bool :=
  match type node with
  | TRoot | TIn | TOut | TPredicate => true
  | TObject => negb (bool_decide (isLiteral node = Some true))
  end.

Definition placeholder (loading : bool) (nodeId : NodeId) : TreeItem :=
  TreeNode (nodeId +:+ ":placeholder")
    (if loading then "Loading..." else "...")%string None None.

(** The body of [buildTreeItem]; [build] stands for its recursive
    calls. *)
Definition buildItem (build : NodeId → option (option TreeItem))
    (loading : bool) (nodes : gmap NodeId NodeData) (nodeId : NodeId)
  : option (option TreeItem) :=
  match nodes !! nodeId with
  | None => Some None
  | Some node =>
      let items :=
        if expandable node
        then
          match children node with
          | Some ((_ :: _) as ch) => collectItems build ch
          | _ =>
              if negb (loaded node) && mayHaveChildren node
              then Some [placeholder loading nodeId]
              else Some []
          end
        else Some [] in
      match items with
      | None => None
      | Some its =>
          Some (Some
            (TreeNode
               (if snd (labelOf node) then "literal:" +:+ nodeId else nodeId)
               (fst (labelOf node))
               (nonEmpty its)
               (if bool_decide (type node = TPredicate)
                then Some (mkPredicateData (predicate node) (iri node)
                             (parentType node))
                else None)))
      end
  end.

Fixpoint buildTreeItem (fuel : nat) (loading : bool)
    (nodes : gmap NodeId NodeData) (nodeId : NodeId)
  : option (option TreeItem) :=
  match fuel with
  | 0 => None
  | S fuel' => buildItem (buildTreeItem fuel' loading nodes) loading nodes nodeId
  end.

(** [itemId.startsWith('literal:') ? itemId.substring(8) : itemId] *)
Definition actualNodeId (itemId : string) : NodeId :=
  if String.prefix "literal:" itemId then Display.dropString 8 itemId
  else itemId.

(** The ids [handleExpandedItemsChange] calls [loadNodeChildren] on, in
    the order of the calls: the newly expanded items that are not
    placeholders, without their [literal:] prefix. *)
Definition handleExpandedItemsChange (expandedItems itemIds : list string)
  : list NodeId :=
  actualNodeId <$>
    filter (λ itemId, (itemId ∉ expandedItems)
                      ∧ Display.includes ":placeholder" itemId = false)
      itemIds.

End GraphBrowserView.

Module SpecializedView.
Import SpecializedGraphBrowser.
Import TreeView.

Definition prefixMap : list (string * string) :=
  Display.prefixMap ++ [("http://schema.org/", "schema:")]%string.

Definition shortenUri : string → string :=
  Display.shortenUriWith prefixMap 50.

Definition placeholder (i : string) : TreeItem :=
  TreeNode (i +:+ ":placeholder") "..." None None.

(** [labelPart ? `${iriPart} | ${labelPart}` : iriPart] *)
Definition formattedLabel (i : string) (node : SpecializedNode) : string :=
  if truthy (label node)
  then shortenUri i +:+ " | " +:+ default ""%string (label node)
  else shortenUri i.

(** The body of [buildTreeItem]; [build] stands for its recursive
    calls. *)
Definition buildItem (build : string → option (option TreeItem))
    (nodes : gmap string SpecializedNode) (i : string)
  : option (option TreeItem) :=
  match nodes !! i with
  | None => Some None
  | Some node =>
      let items :=
        match children node with
        | Some ((_ :: _) as ch) => collectItems build ch
        | _ => if negb (loaded node) then Some [placeholder i] else Some []
        end in
      match items with
      | None => None
      | Some its =>
          Some (Some (TreeNode i (formattedLabel i node) (nonEmpty its) None))
      end
  end.

Fixpoint buildTreeItem (fuel : nat) (nodes : gmap string SpecializedNode)
    (i : string) : option (option TreeItem) :=
  match fuel with
  | 0 => None
  | S fuel' => buildItem (buildTreeItem fuel' nodes) nodes i
  end.

(** [treeItems] *)
Definition treeItems (fuel : nat) (nodes : gmap string SpecializedNode)
    (startNodeIri : string) : option (list TreeItem) :=
  match nodes !! startNodeIri with
  | None => Some []
  | Some _ =>
      match buildTreeItem fuel nodes startNodeIri with
      | None => None
      | Some (Some rootItem) => Some [rootItem]
      | Some None => Some []
      end
  end.

End SpecializedView.

(** ** Sample datasets and exploration states *)

Module Samples.
Import GraphBrowser.

Definition triple (s p : string) (o : Rdf.Term) : Rdf.Quad :=
  Rdf.mkQuad (Rdf.namedNode s) (Rdf.namedNode p) o.

Definition rootId : NodeId := getNodeId TRoot "ex:a" None None.
Definition inId : NodeId := getNodeId TIn "ex:a" None (Some rootId).
Definition outId : NodeId := getNodeId TOut "ex:a" None (Some rootId).
Definition groupId (p : string) : NodeId :=
  getNodeId TPredicate "ex:a" (Some p) (Some outId).

(** The state after submitting [ex:a] as root and expanding the root and
    then its out-group. *)
Definition outGroupExpanded (ds : Rdf.TripleSource) : gmap NodeId NodeData :=
  loadNodeChildren (Some ds)
    (loadNodeChildren (Some ds) (handleLoadRoot "ex:a") rootId) outId.

(** The state after expanding, from there, the out-direction
    PredicateGroup of predicate [p]. *)
Definition groupExpanded (ds : Rdf.TripleSource) (p : string)
  : gmap NodeId NodeData :=
  loadNodeChildren (Some ds) (outGroupExpanded ds) (groupId p).

(** [nodes.get(id)?.children] *)
Definition childrenOf (nodes : gmap NodeId NodeData) (id : NodeId)
  : option (list NodeId) :=
  nodes !! id ≫= children.

(** [(ex:a, ex:knows, ex:b)] *)
Definition knows : list Rdf.Quad :=
  [triple "ex:a" "ex:knows" (Rdf.namedNode "ex:b")].

(** [(ex:a, rdfs:label, "Alice")] *)
Definition alice : list Rdf.Quad :=
  [triple "ex:a" "rdfs:label" (Rdf.literal "Alice" "")].

(** Two labels with distinct lexical values. *)
Definition twoLabels : list Rdf.Quad :=
  [triple "ex:a" "rdfs:label" (Rdf.literal "Alice" "");
   triple "ex:a" "rdfs:label" (Rdf.literal "Alicia" "es")].

(** Two distinct literals that share the lexical value ["chat"]: an
    English and a French one. *)
Definition chat : list Rdf.Quad :=
  [triple "ex:a" "ex:p" (Rdf.literal "chat" "en");
   triple "ex:a" "ex:p" (Rdf.literal "chat" "fr")].

(** [(ex:a, ex:p, ex:v1) ... (ex:a, ex:p, ex:vn)] *)
Definition fanOut (n : nat) : list Rdf.Quad :=
  (λ k : nat, triple "ex:a" "ex:p" (Rdf.namedNode ("ex:v" +:+ pretty k)))
    <$> seq 1 n.

(** [n] blank-node objects of [ex:p]. *)
Definition blanks (n : nat) : list Rdf.Quad :=
  (λ k : nat, triple "ex:a" "ex:p" (Rdf.blankNode ("b" +:+ pretty k)))
    <$> seq 1 n.

(** Ids of a session on [ex:b]: the root, its in-group and an
    in-direction PredicateGroup. *)
Definition rootIdB : NodeId := getNodeId TRoot "ex:b" None None.
Definition inIdB : NodeId := getNodeId TIn "ex:b" None (Some rootIdB).
Definition incomingGroupId (p : string) : NodeId :=
  getNodeId TPredicate "ex:b" (Some p) (Some inIdB).

(** The state after submitting [ex:b] as root and expanding the root and
    then its in-group. *)
Definition inGroupExpanded (ds : Rdf.TripleSource) : gmap NodeId NodeData :=
  loadNodeChildren (Some ds)
    (loadNodeChildren (Some ds) (handleLoadRoot "ex:b") rootIdB) inIdB.

(** [(ex:a, ex:knows, ex:a)] *)
Definition selfLoop : list Rdf.Quad :=
  [triple "ex:a" "ex:knows" (Rdf.namedNode "ex:a")].

End Samples.

(** * Properties *)

(** ** Strings and node identifiers *)

Section GraphBrowserFacts.
Import GraphBrowser.
Import Samples.

Lemma string_app_length (s t : string) :
  String.length (s +:+ t) = String.length s + String.length t.
Proof. induction s as [|a s IH]; simpl; [done|]. by rewrite <- IH. Qed.

Lemma string_app_ne_self (s t : string) : t ≠ ""%string → s +:+ t ≠ s.
Proof.
  intros Ht Heq. apply (f_equal String.length) in Heq.
  rewrite string_app_length in Heq. destruct t; [done|]. simpl in Heq. lia.
Qed.

Lemma truthy_Some (s : string) : truthy (Some s) = bool_decide (s ≠ ""%string).
Proof.
  unfold truthy. destruct (String.eqb_spec s ""); subst.
  - by rewrite bool_decide_eq_false_2; [|intros H; apply H].
  - by rewrite bool_decide_eq_true_2.
Qed.

Lemma getNodeId_child_ne t i p (parent : NodeId) :
  getNodeId t i p (Some parent) ≠ parent.
Proof.
  unfold getNodeId. destruct (truthy (Some parent)) eqn:Hp.
  - apply string_app_ne_self. done.
  - rewrite truthy_Some in Hp. apply bool_decide_eq_false in Hp.
    assert (parent = ""%string) as -> by (destruct (decide (parent = ""%string)); [done|by destruct Hp]).
    destruct p as [pr|]; [destruct (truthy (Some pr))|]; by destruct t.
Qed.

Lemma getNodeId_in_ne_out i parent :
  getNodeId TIn i None parent ≠ getNodeId TOut i None parent.
Proof.
  unfold getNodeId. destruct parent as [par|]; [destruct (truthy (Some par))|];
    try done.
  intros H. by apply (inj (String.app par)) in H.
Qed.

Lemma getNodeId_predicate_inj i parent p q :
  getNodeId TPredicate i (Some p) parent = getNodeId TPredicate i (Some q) parent →
  p = q.
Proof.
  unfold getNodeId. intros H.
  assert ((if truthy (Some p) then typeName TPredicate +:+ ":" +:+ i +:+ ":" +:+ p else typeName TPredicate +:+ ":" +:+ i)
        = (if truthy (Some q) then typeName TPredicate +:+ ":" +:+ i +:+ ":" +:+ q else typeName TPredicate +:+ ":" +:+ i)) as Hb.
  { destruct parent as [par|]; [destruct (truthy (Some par))|]; try done.
    apply (inj (String.app par)) in H. by apply (inj (String.app "->")) in H. }
  clear H. rewrite !truthy_Some in Hb.
  repeat case_bool_decide; simplify_eq/=.
  all: try done.
  - exfalso. by apply (string_app_ne_self i (":" +:+ p)).
  - exfalso. by apply (string_app_ne_self i (":" +:+ q)).
Qed.

Lemma getNodeId_object_inj parent v w :
  getNodeId TObject v None parent = getNodeId TObject w None parent → v = w.
Proof.
  unfold getNodeId. intros H.
  destruct parent as [par|]; [destruct (truthy (Some par))|]; by simplify_eq/=.
Qed.

Lemma mergeEntries_union (newNodes prevNodes : gmap NodeId NodeData) :
  mergeEntries newNodes prevNodes = newNodes ∪ prevNodes.
Proof.
  unfold mergeEntries.
  induction newNodes as [|k v m Hk IH] using map_ind.
  - by rewrite map_fold_empty, (left_id_L ∅ (∪)).
  - rewrite map_fold_insert_L; [|intros; by apply insert_insert_ne|done].
    by rewrite IH, insert_union_l.
Qed.

(** Folding unconditional [set]s: the last write of a key wins. *)
Lemma foldl_insert_lookup_in {A} (f : A → NodeId) (g : A → NodeData)
    (l : list A) (m : gmap NodeId NodeData) (x : A) :
  (∀ y, y ∈ l → f y = f x → g y = g x) →
  x ∈ l →
  foldl (λ acc y, <[f y := g y]> acc) m l !! f x = Some (g x).
Proof.
  revert m. induction l as [|z l IH] using rev_ind; intros m Hg Hx.
  - by apply elem_of_nil in Hx.
  - rewrite foldl_app. simpl. destruct (decide (f z = f x)) as [Heq|Hne].
    + rewrite Heq, lookup_insert_eq. f_equal.
      apply Hg; [|done]. apply elem_of_app. right. by apply list_elem_of_singleton.
    + rewrite lookup_insert_ne by done.
      apply IH; [intros y Hy Hfy; apply Hg; [apply elem_of_app; by left|done]|].
      apply elem_of_app in Hx as [?|Hx]; [done|].
      apply list_elem_of_singleton in Hx. congruence.
Qed.


Lemma foldl_addPredicateNode nodeId i d preds nn ch :
  foldl (addPredicateNode nodeId i d) (nn, ch) preds =
  (foldl (λ acc p, <[getNodeId TPredicate i (Some p) (Some nodeId)
                      := predicateNode i p d nodeId]> acc) nn preds,
   ch ++ ((λ p, getNodeId TPredicate i (Some p) (Some nodeId)) <$> preds)).
Proof.
  revert nn ch. induction preds as [|p preds IH]; intros nn ch; simpl.
  - by rewrite app_nil_r.
  - unfold addPredicateNode at 2. simpl. rewrite IH. by rewrite <- app_assoc.
Qed.

Lemma commit_fresh nodeId (nn : gmap NodeId NodeData) ch prev node :
  nn !! nodeId = None → prev !! nodeId = Some node →
  singleLiteralValue node = None →
  commit nodeId nn ch prev = <[nodeId := markLoaded node ch]> (nn ∪ prev).
Proof.
  intros Hnn Hprev Hsl. unfold commit. rewrite mergeEntries_union.
  rewrite lookup_union_r by done. by rewrite Hprev, Hsl.
Qed.

Lemma loadNodeChildren_ready dataset nodes nodeId nn ch :
  prepare dataset nodes nodeId = Ready nn ch →
  loadNodeChildrenOutcome dataset nodes nodeId = (commit nodeId nn ch nodes, Committed).
Proof. intros H. unfold loadNodeChildrenOutcome. by rewrite H. Qed.



(** The sorted list does not depend on the sorting algorithm: any sorted
    rearrangement of the same strings is the one [sortStrings] returns. *)
Lemma sortStrings_unique (l l' : list string) :
  l' ≡ₚ l → Sorted String.le l' → l' = sortStrings l.
Proof.
  intros Hperm Hsorted. unfold sortStrings.
  apply (Sorted_unique String.le); [done|apply Sorted_merge_sort; apply _|].
  by rewrite merge_sort_Permutation.
Qed.





(** ** Expansion of roots and direction groups *)





(** ** Expansion of out-direction predicate groups *)

Lemma objectsLoop_spec limit count matches objects :
  objectsLoop limit count matches objects =
  objects ++ (objInfoOf <$>
              List.filter retained (Rdf.object <$> take (limit - count) matches)).
Proof.
  revert count objects.
  induction matches as [|quad rest IH]; intros count objects; simpl.
  - by rewrite take_nil, app_nil_r.
  - case_bool_decide as Hc.
    + replace (limit - count) with 0 by lia. by rewrite app_nil_r.
    + replace (limit - count) with (S (limit - S count)) by lia.
      rewrite IH. simpl. destruct (retained (Rdf.object quad)); [|done].
      by rewrite <- app_assoc.
Qed.

Lemma filter_length_bound {A} (f : A → bool) (l : list A) :
  length (List.filter f l) ≤ length l.
Proof. induction l as [|x l IH]; simpl; [done|]. destruct (f x); simpl; lia. Qed.

Lemma objectsLoop_length limit matches :
  length (objectsLoop limit 0 matches []) ≤ limit.
Proof.
  rewrite objectsLoop_spec. simpl. rewrite length_fmap.
  etrans; [apply filter_length_bound|].
  rewrite length_fmap, length_take. lia.
Qed.

Lemma setIfAbsent_lookup_Some id node (m : gmap NodeId NodeData) k v :
  m !! k = Some v → setIfAbsent id node m !! k = Some v.
Proof.
  intros Hk. unfold setIfAbsent. destruct (m !! id) eqn:Hid; [done|].
  rewrite lookup_insert_ne; [done|]. intros ->. congruence.
Qed.

Lemma foldl_setIfAbsent_lookup_Some {A} (f : A → NodeId) (g : A → NodeData)
    (l : list A) (m : gmap NodeId NodeData) k v :
  m !! k = Some v →
  foldl (λ acc y, setIfAbsent (f y) (g y) acc) m l !! k = Some v.
Proof.
  revert m. induction l as [|z l IH]; intros m Hk; simpl; [done|].
  apply IH. by apply setIfAbsent_lookup_Some.
Qed.

(** Folding guarded [set]s: the first write of a key wins. *)
Lemma foldl_setIfAbsent_lookup_in {A} (f : A → NodeId) (g : A → NodeData)
    (l : list A) (m : gmap NodeId NodeData) (x : A) :
  (∀ y, y ∈ l → f y = f x → g y = g x) →
  x ∈ l → m !! f x = None →
  foldl (λ acc y, setIfAbsent (f y) (g y) acc) m l !! f x = Some (g x).
Proof.
  revert m. induction l as [|z l IH]; intros m Hg Hx Hm; simpl.
  - by apply elem_of_nil in Hx.
  - destruct (decide (f z = f x)) as [Heq|Hne].
    + apply foldl_setIfAbsent_lookup_Some. unfold setIfAbsent.
      rewrite Heq, Hm, lookup_insert_eq. f_equal.
      apply Hg; [apply list_elem_of_here|done].
    + apply IH.
      * intros y Hy. apply Hg. by apply list_elem_of_further.
      * apply elem_of_cons in Hx as [->|Hx]; [done|done].
      * unfold setIfAbsent. destruct (m !! f z); [done|].
        by rewrite lookup_insert_ne.
Qed.

Lemma foldl_setIfAbsent_lookup_notin {A} (f : A → NodeId) (g : A → NodeData)
    (l : list A) (m : gmap NodeId NodeData) (k : NodeId) :
  k ∉ f <$> l →
  foldl (λ acc y, setIfAbsent (f y) (g y) acc) m l !! k = m !! k.
Proof.
  revert m. induction l as [|z l IH]; intros m Hk; simpl; [done|].
  rewrite fmap_cons in Hk. apply not_elem_of_cons in Hk as [Hk1 Hk2].
  rewrite IH by done. unfold setIfAbsent. destruct (m !! f z); [done|].
  by rewrite lookup_insert_ne.
Qed.

Lemma foldl_addObjectNode nodeId mk objs nn ch :
  foldl (addObjectNode nodeId mk) (nn, ch) objs =
  (foldl (λ acc o, setIfAbsent (objectId nodeId o) (mk o) acc) nn objs,
   ch ++ (objectId nodeId <$> objs)).
Proof.
  revert nn ch. induction objs as [|o objs IH]; intros nn ch; simpl.
  - by rewrite app_nil_r.
  - unfold addObjectNode at 2. simpl. rewrite IH. by rewrite <- app_assoc.
Qed.

Lemma objectId_ne nodeId o : objectId nodeId o ≠ nodeId.
Proof. apply getNodeId_child_ne. Qed.

Lemma object_fold_lookup_self nodeId (mk : ObjInfo → NodeData) objs :
  foldl (λ acc o, setIfAbsent (objectId nodeId o) (mk o) acc) ∅ objs !! nodeId
  = None.
Proof.
  rewrite foldl_setIfAbsent_lookup_notin; [apply lookup_empty|].
  intros (o & Ho & _)%list_elem_of_fmap. symmetry in Ho. by apply objectId_ne in Ho.
Qed.

(** The single-literal case of the predicate branch. *)
Lemma expandObjects_single nodeId node o :
  oIsLiteral o = true →
  expandObjects nodeId node [o] =
    ({[nodeId := collapsed node (oValue o) [o]]}, []).
Proof.
  intros Ho. unfold expandObjects. simpl. rewrite Ho. simpl.
  by rewrite lookup_insert_eq.
Qed.

(** Every other case: the group record receives [objectInfo] and one
    child id per retained object. *)
Lemma expandObjects_children nodeId node objects :
  (∀ o, objects = [o] → oIsLiteral o = false) →
  expandObjects nodeId node objects =
    (<[nodeId := withObjectInfo node objects]>
       (foldl (λ acc o, setIfAbsent (objectId nodeId o)
                          (if forallb oIsLiteral objects
                           then literalObject nodeId o
                           else mixedObject nodeId o) acc) ∅ objects),
     objectId nodeId <$> objects).
Proof.
  intros Hsingle. unfold expandObjects.
  destruct objects as [|o1 [|o2 objects]].
  - done.
  - simpl. rewrite (Hsingle o1 eq_refl). simpl.
    unfold addObjectNode, setIfAbsent. simpl.
    rewrite lookup_empty, lookup_insert_ne by apply objectId_ne. simpl.
    rewrite lookup_empty. done.
  - set (objs := o1 :: o2 :: objects).
    assert (bool_decide (1 < length objs) = true) as Hlen
      by (apply bool_decide_eq_true; simpl; lia).
    rewrite Hlen, andb_true_r.
    destruct (forallb oIsLiteral objs) eqn:Hall;
      rewrite foldl_addObjectNode; cbn [fst snd app];
      rewrite object_fold_lookup_self; done.
Qed.

Lemma prepare_predicate_out dataset (nodes : gmap NodeId NodeData) nodeId node p objects :
  nodes !! nodeId = Some node → loaded node = false → type node = TPredicate →
  predicate node = Some p → p ≠ ""%string → iri node ≠ ""%string →
  parentType node = Some DirOut →
  loadObjects dataset (iri node) p defaultLimit = Ok objects →
  prepare dataset nodes nodeId =
    Ready (expandObjects nodeId node objects).1 (expandObjects nodeId node objects).2.
Proof.
  intros Hn Hl Ht Hp Hpne Hine Hd Hq. unfold prepare.
  rewrite Hn, Hl, Ht, Hp, Hd, Hq, truthy_Some.
  rewrite (bool_decide_eq_true_2 (p ≠ ""%string)) by done.
  destruct (String.eqb_spec (iri node) ""); [done|].
  simpl. by rewrite ?bool_decide_eq_true_2.
Qed.

Lemma loadNodeChildren_collapse dataset (nodes : gmap NodeId NodeData) nodeId node p o :
  nodes !! nodeId = Some node → loaded node = false → type node = TPredicate →
  predicate node = Some p → p ≠ ""%string → iri node ≠ ""%string →
  parentType node = Some DirOut →
  loadObjects dataset (iri node) p defaultLimit = Ok [o] → oIsLiteral o = true →
  loadNodeChildrenOutcome dataset nodes nodeId =
    (<[nodeId := collapsed node (oValue o) [o]]> nodes, Committed).
Proof.
  intros Hn Hl Ht Hp Hpne Hine Hd Hq Ho.
  rewrite (loadNodeChildren_ready _ _ _ _ _
             (prepare_predicate_out _ _ _ _ _ _ Hn Hl Ht Hp Hpne Hine Hd Hq)).
  rewrite expandObjects_single by done. simpl. f_equal.
  unfold commit. rewrite mergeEntries_union.
  rewrite <- insert_union_singleton_l, lookup_insert_eq. done.
Qed.

Lemma loadNodeChildren_objects dataset (nodes : gmap NodeId NodeData) nodeId node p objects :
  nodes !! nodeId = Some node → loaded node = false → type node = TPredicate →
  predicate node = Some p → p ≠ ""%string → iri node ≠ ""%string →
  parentType node = Some DirOut → singleLiteralValue node = None →
  loadObjects dataset (iri node) p defaultLimit = Ok objects →
  (∀ o, objects = [o] → oIsLiteral o = false) →
  loadNodeChildrenOutcome dataset nodes nodeId =
    (<[nodeId := markLoaded (withObjectInfo node objects)
                   (objectId nodeId <$> objects)]>
       (foldl (λ acc o, setIfAbsent (objectId nodeId o)
                          (if forallb oIsLiteral objects
                           then literalObject nodeId o
                           else mixedObject nodeId o) acc) ∅ objects
        ∪ nodes), Committed).
Proof.
  intros Hn Hl Ht Hp Hpne Hine Hd Hs Hq Hmany.
  rewrite (loadNodeChildren_ready _ _ _ _ _
             (prepare_predicate_out _ _ _ _ _ _ Hn Hl Ht Hp Hpne Hine Hd Hq)).
  rewrite expandObjects_children by done. simpl. f_equal.
  unfold commit. rewrite mergeEntries_union.
  rewrite lookup_union_l' by (rewrite lookup_insert_eq; eauto).
  rewrite lookup_insert_eq. simpl. rewrite Hs.
  rewrite <- insert_union_l, insert_insert_eq. done.
Qed.

(** C1, as amended.  Consider an out-direction PredicateGroup expansion
    whose retained result set [objects] consists of literals only.  If it
    is exactly one literal, the group is collapsed: the literal's value is
    stored on the group record, which is marked loaded with an empty
    children list and is not expandable, and the node map gains no
    record.  If it has two or more literals, the group is marked loaded
    and stays expandable, its children list holds, in result order, the
    id of the Value node of each literal, and that id resolves to a
    terminal, unloaded Value record carrying the literal's value; two
    literals have the same Value node exactly when their lexical values
    are equal, so one Value node is materialized per distinct literal
    value.  No other record changes. *)
Theorem literal_collapse_policy
    dataset (nodes : gmap NodeId NodeData) nodeId node p objects :
  nodes !! nodeId = Some node → loaded node = false → type node = TPredicate →
  predicate node = Some p → p ≠ ""%string → iri node ≠ ""%string →
  parentType node = Some DirOut → singleLiteralValue node = None →
  loadObjects dataset (iri node) p defaultLimit = Ok objects →
  forallb oIsLiteral objects = true →
  let nodes' := loadNodeChildren dataset nodes nodeId in
  (∀ o, objects = [o] →
     nodes' = <[nodeId := collapsed node (oValue o) [o]]> nodes ∧
     dom nodes' = dom nodes ∧
     ∃ group, nodes' !! nodeId = Some group ∧
       singleLiteralValue group = Some (oValue o) ∧
       loaded group = true ∧ children group = Some [] ∧
       expandable group = false) ∧
  (1 < length objects →
     (∃ group, nodes' !! nodeId = Some group ∧
        loaded group = true ∧
        children group = Some (objectId nodeId <$> objects) ∧
        singleLiteralValue group = None ∧ expandable group = true) ∧
     (∀ o, o ∈ objects →
        nodes' !! objectId nodeId o = Some (literalObject nodeId o) ∧
        expandable (literalObject nodeId o) = false) ∧
     (∀ o1 o2, objectId nodeId o1 = objectId nodeId o2 ↔ oValue o1 = oValue o2) ∧
     (∀ k, k ≠ nodeId → k ∉ objectId nodeId <$> objects →
        nodes' !! k = nodes !! k)).
Proof.
  intros Hn Hl Ht Hp Hpne Hine Hd Hs Hq Hall nodes'. split.
  - intros o ->. simpl in Hall. rewrite andb_true_r in Hall.
    pose proof (loadNodeChildren_collapse _ _ _ _ _ _ Hn Hl Ht Hp Hpne Hine Hd Hq Hall)
      as Hload.
    assert (nodes' = <[nodeId := collapsed node (oValue o) [o]]> nodes) as Heq.
    { unfold nodes', loadNodeChildren. by rewrite Hload. }
    split_and!; [done| |].
    + rewrite Heq, dom_insert_L. apply subseteq_union_1_L, singleton_subseteq_l.
      by apply elem_of_dom_2 in Hn.
    + eexists. rewrite Heq, lookup_insert_eq. split_and!; try done.
      unfold expandable, isSingleLiteralPredicate. simpl. by rewrite Ht.
  - intros Hlen.
    assert (∀ o, objects = [o] → oIsLiteral o = false) as Hmany.
    { intros o ->. simpl in Hlen. lia. }
    pose proof (loadNodeChildren_objects _ _ _ _ _ _
                  Hn Hl Ht Hp Hpne Hine Hd Hs Hq Hmany) as Hload.
    rewrite Hall in Hload.
    assert (∀ o1 o2, objectId nodeId o1 = objectId nodeId o2 ↔ oValue o1 = oValue o2)
      as Hid.
    { intros o1 o2. split; [apply getNodeId_object_inj|].
      unfold objectId. by intros ->. }
    unfold nodes', loadNodeChildren. rewrite Hload. simpl. split_and!.
    + eexists. rewrite lookup_insert_eq. split_and!; try done.
      unfold expandable, isSingleLiteralPredicate, isLiteralObject. simpl.
      by rewrite Ht, Hs.
    + intros o Ho. split.
      * rewrite lookup_insert_ne by (symmetry; apply objectId_ne).
        apply lookup_union_Some_l.
        apply (foldl_setIfAbsent_lookup_in (objectId nodeId) (literalObject nodeId));
          [|done|apply lookup_empty].
        intros y _ Hy. apply Hid in Hy. unfold literalObject. by rewrite Hy.
      * done.
    + done.
    + intros k Hk Hnotin. rewrite lookup_insert_ne by done.
      apply lookup_union_r.
      rewrite (foldl_setIfAbsent_lookup_notin (objectId nodeId)) by done.
      apply lookup_empty.
Qed.

(** The policy at work: the single label of [alice] is collapsed onto
    its group, and the second of the two labels of [twoLabels] is a
    terminal Value node. *)
Lemma literal_collapse_policy_witness :
  (groupExpanded (Rdf.ofQuads alice) "rdfs:label"
   = <[groupId "rdfs:label"
       := collapsed (predicateNode "ex:a" "rdfs:label" DirOut outId) "Alice"
            [mkObjInfo "Alice" true]]> (outGroupExpanded (Rdf.ofQuads alice))) ∧
  (groupExpanded (Rdf.ofQuads twoLabels) "rdfs:label"
     !! objectId (groupId "rdfs:label") (mkObjInfo "Alicia" true)
   = Some (literalObject (groupId "rdfs:label") (mkObjInfo "Alicia" true))).
Proof.
  split.
  - destruct (literal_collapse_policy (Some (Rdf.ofQuads alice))
                (outGroupExpanded (Rdf.ofQuads alice)) (groupId "rdfs:label")
                (predicateNode "ex:a" "rdfs:label" DirOut outId) "rdfs:label"
                [mkObjInfo "Alice" true]) as [Hone _];
      [vm_compute; reflexivity| reflexivity | reflexivity | reflexivity
      | discriminate | discriminate | reflexivity | reflexivity
      | vm_compute; reflexivity | reflexivity |].
    exact (proj1 (Hone (mkObjInfo "Alice" true) eq_refl)).
  - destruct (literal_collapse_policy (Some (Rdf.ofQuads twoLabels))
                (outGroupExpanded (Rdf.ofQuads twoLabels)) (groupId "rdfs:label")
                (predicateNode "ex:a" "rdfs:label" DirOut outId) "rdfs:label"
                [mkObjInfo "Alice" true; mkObjInfo "Alicia" true]) as [_ Hmany];
      [vm_compute; reflexivity| reflexivity | reflexivity | reflexivity
      | discriminate | discriminate | reflexivity | reflexivity
      | vm_compute; reflexivity | reflexivity |].
    destruct Hmany as (_ & Hval & _); [simpl; lia|].
    apply Hval. apply list_elem_of_further, list_elem_of_here.
Defined.

(** C1, as stated, fails: an English and a French literal with the same
    lexical value are two retained literal results, yet the expansion
    adds a single Value record to the node map and lists its id twice, so
    the children are not two distinct Value nodes. *)
Lemma equal_literals_share_one_value_node :
  loadObjects (Some (Rdf.ofQuads chat)) "ex:a" "ex:p" defaultLimit
    = Ok [mkObjInfo "chat" true; mkObjInfo "chat" true] ∧
  childrenOf (groupExpanded (Rdf.ofQuads chat) "ex:p") (groupId "ex:p")
    = Some [objectId (groupId "ex:p") (mkObjInfo "chat" true);
            objectId (groupId "ex:p") (mkObjInfo "chat" true)] ∧
  size (groupExpanded (Rdf.ofQuads chat) "ex:p")
    = S (size (outGroupExpanded (Rdf.ofQuads chat))) ∧
  ¬ (∃ id1 id2, id1 ≠ id2 ∧
       childrenOf (groupExpanded (Rdf.ofQuads chat) "ex:p") (groupId "ex:p")
         = Some [id1; id2]).
Proof.
  split_and!; [by vm_compute..|].
  intros (id1 & id2 & Hne & Hch). vm_compute in Hch. congruence.
Qed.

Lemma loadObjects_Some ds i p limit matches :
  ds (Some (Rdf.namedNode i)) (Some (Rdf.namedNode p)) None = Ok matches →
  loadObjects (Some ds) i p limit =
    Ok (objInfoOf <$> List.filter retained (Rdf.object <$> take limit matches)).
Proof.
  intros Hq. unfold loadObjects. rewrite Hq. simpl.
  by rewrite objectsLoop_spec, Nat.sub_0_r.
Qed.

Lemma filter_retained_named (ts : list Rdf.Term) :
  (∀ t, t ∈ ts → Rdf.termType t = Rdf.NamedNode) →
  List.filter retained ts = ts.
Proof.
  induction ts as [|t ts IH]; intros Hall; simpl; [done|].
  unfold retained at 1. rewrite (Hall t) by apply list_elem_of_here.
  simpl. f_equal. apply IH. intros t' Ht'. apply Hall. by apply list_elem_of_further.
Qed.

(** C4 (silent truncation).  An out-direction PredicateGroup expansion
    whose query returns commits without a caught error and leaves the
    group with at most 100 children; when every matched object is a
    named resource the children are the Value ids of the first 100
    matches, in order.  For the 150 triples from [ex:a] through [ex:p] to
    [ex:v1] ... [ex:v150] the expansion commits and yields exactly the
    100 Value children of [ex:v1] ... [ex:v100], each an unloaded
    named-resource Value record; nothing in the result reports the 50
    dropped matches. *)
Theorem predicate_group_cap
    ds (nodes : gmap NodeId NodeData) nodeId node p matches :
  nodes !! nodeId = Some node → loaded node = false → type node = TPredicate →
  predicate node = Some p → p ≠ ""%string → iri node ≠ ""%string →
  parentType node = Some DirOut → singleLiteralValue node = None →
  ds (Some (Rdf.namedNode (iri node))) (Some (Rdf.namedNode p)) None = Ok matches →
  ((loadNodeChildrenOutcome (Some ds) nodes nodeId).2 = Committed ∧
   ∃ ch, childrenOf (loadNodeChildren (Some ds) nodes nodeId) nodeId = Some ch ∧
         length ch ≤ 100 ∧
         ((∀ q, q ∈ matches → Rdf.termType (Rdf.object q) = Rdf.NamedNode) →
          ch = (λ q, objectId nodeId (objInfoOf (Rdf.object q))) <$> take 100 matches)) ∧
  ((loadNodeChildrenOutcome (Some (Rdf.ofQuads (fanOut 150)))
      (outGroupExpanded (Rdf.ofQuads (fanOut 150))) (groupId "ex:p")).2 = Committed ∧
   length <$> childrenOf (groupExpanded (Rdf.ofQuads (fanOut 150)) "ex:p")
                (groupId "ex:p") = Some 100 ∧
   childrenOf (groupExpanded (Rdf.ofQuads (fanOut 150)) "ex:p") (groupId "ex:p")
     = Some ((λ k : nat, objectId (groupId "ex:p")
                           (mkObjInfo ("ex:v" +:+ pretty k) false)) <$> seq 1 100) ∧
   ∀ k : nat, k ∈ seq 1 100 →
     groupExpanded (Rdf.ofQuads (fanOut 150)) "ex:p"
       !! objectId (groupId "ex:p") (mkObjInfo ("ex:v" +:+ pretty k) false)
     = Some (objectNode ("ex:v" +:+ pretty k) false None (groupId "ex:p"))).
Proof.
  intros Hn Hl Ht Hp Hpne Hine Hd Hs Hq. split.
  - pose proof (loadObjects_Some ds (iri node) p defaultLimit matches Hq) as Hobj.
    set (objects := objInfoOf <$>
           List.filter retained (Rdf.object <$> take defaultLimit matches)) in *.
    assert (length objects ≤ 100) as Hlen.
    { unfold objects. rewrite length_fmap.
      etrans; [apply filter_length_bound|].
      rewrite length_fmap, length_take. unfold defaultLimit. lia. }
    assert ((∀ q, q ∈ matches → Rdf.termType (Rdf.object q) = Rdf.NamedNode) →
            objects = (λ q, objInfoOf (Rdf.object q)) <$> take 100 matches
            ∧ ∀ o, o ∈ objects → oIsLiteral o = false) as Hnamed.
    { intros Hall. unfold objects. rewrite filter_retained_named.
      - split; [by rewrite <- list_fmap_compose|].
        intros o (t & -> & (q & -> & Hq')%list_elem_of_fmap)%list_elem_of_fmap.
        unfold objInfoOf. simpl. apply bool_decide_eq_false.
        rewrite Hall; [done|]. apply elem_of_take in Hq' as (i & Hi & _).
        by eapply list_elem_of_lookup_2.
      - intros t (q & -> & Hq')%list_elem_of_fmap. apply Hall.
        apply elem_of_take in Hq' as (i & Hi & _). by eapply list_elem_of_lookup_2. }
    clearbody objects.
    assert ((∃ o, objects = [o] ∧ oIsLiteral o = true)
            ∨ (∀ o, objects = [o] → oIsLiteral o = false))
      as [(o & Ho & Hlit)|Hmany].
    { destruct objects as [|o [|o2 rest]]; [by right| |by right].
      destruct (oIsLiteral o) eqn:Hlit; [left; eauto|right].
      by intros o' [= <-]. }
    + rewrite Ho in Hobj.
      pose proof (loadNodeChildren_collapse _ _ _ _ _ _
                    Hn Hl Ht Hp Hpne Hine Hd Hobj Hlit) as Hload.
      unfold loadNodeChildren. rewrite Hload. simpl. split; [done|].
      exists []. unfold childrenOf. rewrite lookup_insert_eq. simpl.
      split_and!; [done|lia|].
      intros Hall. destruct (Hnamed Hall) as [_ Hf].
      rewrite (Hf o) in Hlit; [done|]. rewrite Ho. apply list_elem_of_here.
    + pose proof (loadNodeChildren_objects _ _ _ _ _ _
                    Hn Hl Ht Hp Hpne Hine Hd Hs Hobj Hmany) as Hload.
      unfold loadNodeChildren. rewrite Hload. simpl. split; [done|].
      exists (objectId nodeId <$> objects). unfold childrenOf.
      rewrite lookup_insert_eq. simpl. split_and!; [done|by rewrite length_fmap|].
      intros Hall. destruct (Hnamed Hall) as [-> _].
      by rewrite <- list_fmap_compose.
  - split_and!; [by vm_compute..|].
    apply Forall_forall. apply (bool_decide_unpack _). by vm_compute.
Qed.

(** The group of [ex:p] over 150 named-resource objects. *)
Lemma predicate_group_cap_witness :
  ∃ ch, childrenOf (groupExpanded (Rdf.ofQuads (fanOut 150)) "ex:p") (groupId "ex:p")
        = Some ch ∧ length ch ≤ 100.
Proof.
  destruct (predicate_group_cap (Rdf.ofQuads (fanOut 150))
              (outGroupExpanded (Rdf.ofQuads (fanOut 150))) (groupId "ex:p")
              (predicateNode "ex:a" "ex:p" DirOut outId) "ex:p" (fanOut 150))
    as [[_ (ch & Hch & Hlen & _)] _];
    [vm_compute; reflexivity | reflexivity | reflexivity | reflexivity
    | discriminate | discriminate | reflexivity | reflexivity
    | vm_compute; reflexivity |].
  exists ch. split; [exact Hch | exact Hlen].
Defined.

(** C9.  The loop of [loadObjects] keeps the retained objects among the
    first [limit] matches, so discarded terms consume the cap; and there
    is a dataset with more than 100 retainable objects under one
    predicate (60 blank nodes followed by 150 named resources) whose
    PredicateGroup expansion commits with fewer than 100 children. *)
Theorem cap_counts_discarded_matches :
  (∀ limit matches,
     objectsLoop limit 0 matches [] =
       objInfoOf <$> List.filter retained (Rdf.object <$> take limit matches)) ∧
  ∃ qs : list Rdf.Quad,
    Rdf.ofQuads qs (Some (Rdf.namedNode "ex:a")) (Some (Rdf.namedNode "ex:p")) None
      = Ok qs ∧
    100 < length (List.filter retained (Rdf.object <$> qs)) ∧
    (loadNodeChildrenOutcome (Some (Rdf.ofQuads qs))
       (outGroupExpanded (Rdf.ofQuads qs)) (groupId "ex:p")).2 = Committed ∧
    ∃ ch, childrenOf (groupExpanded (Rdf.ofQuads qs) "ex:p") (groupId "ex:p")
            = Some ch ∧
          length ch < 100.
Proof.
  split.
  - intros limit matches. by rewrite objectsLoop_spec, Nat.sub_0_r.
  - exists (blanks 60 ++ fanOut 150). split_and!.
    + by vm_compute.
    + replace (length (List.filter retained (Rdf.object <$> blanks 60 ++ fanOut 150)))
        with 150 by (by vm_compute). lia.
    + by vm_compute.
    + exists ((λ k : nat, objectId (groupId "ex:p")
                           (mkObjInfo ("ex:v" +:+ pretty k) false)) <$> seq 1 40).
      split; [by vm_compute|]. rewrite length_fmap, length_seq. lia.
Qed.

(** ** Write-back and failure *)

Lemma loadNodeChildren_writeBack dataset (nodes : gmap NodeId NodeData) nodeId :
  loadNodeChildren dataset nodes nodeId
  = writeBack (prepare dataset nodes nodeId) nodeId nodes.
Proof.
  unfold loadNodeChildren, loadNodeChildrenOutcome, writeBack.
  by destruct (prepare dataset nodes nodeId).
Qed.


(** What makes a call end in the [catch] block: the one pattern query
    issued for an unloaded group or predicate node throws. *)
Lemma query_threw_caught ds (nodes : gmap NodeId NodeData) nodeId node :
  nodes !! nodeId = Some node → loaded node = false →
  (type node = TOut ∧ ds (Some (Rdf.namedNode (iri node))) None None = Threw)
  ∨ (type node = TIn ∧ ds None None (Some (Rdf.namedNode (iri node))) = Threw)
  ∨ (type node = TPredicate ∧ iri node ≠ ""%string ∧
     ∃ p, predicate node = Some p ∧ p ≠ ""%string ∧
          ((parentType node = Some DirOut ∧
            ds (Some (Rdf.namedNode (iri node))) (Some (Rdf.namedNode p)) None
              = Threw)
           ∨ (parentType node ≠ Some DirOut ∧
              ds None (Some (Rdf.namedNode p)) (Some (Rdf.namedNode (iri node)))
                = Threw))) →
  loadNodeChildrenOutcome (Some ds) nodes nodeId = (nodes, Caught).
Proof.
  intros Hn Hl Ht. unfold loadNodeChildrenOutcome, prepare. rewrite Hn, Hl.
  destruct Ht as [[-> Hq]|[[-> Hq]|(-> & Hi & p & -> & Hp & Hq)]].
  - unfold loadOutgoingPredicates. by rewrite Hq.
  - unfold loadIncomingPredicates. by rewrite Hq.
  - rewrite truthy_Some, (bool_decide_eq_true_2 (p ≠ ""%string)) by done.
    destruct (String.eqb_spec (iri node) ""); [done|]. simpl.
    destruct Hq as [[Hd Hq]|[Hd Hq]].
    + rewrite bool_decide_eq_true_2 by done. unfold loadObjects. by rewrite Hq.
    + rewrite bool_decide_eq_false_2 by done. unfold loadSubjects. by rewrite Hq.
Qed.

(** A call that ended in its [catch] block never reached [setNodes]. *)
Lemma caught_commits_nothing dataset (nodes : gmap NodeId NodeData) nodeId :
  (loadNodeChildrenOutcome dataset nodes nodeId).2 = Caught →
  prepare dataset nodes nodeId = QueryThrew ∧
  loadNodeChildren dataset nodes nodeId = nodes.
Proof.
  intros Hc.
  assert (prepare dataset nodes nodeId = QueryThrew) as Hprep.
  { unfold loadNodeChildrenOutcome in Hc.
    by destruct (prepare dataset nodes nodeId). }
  split; [done|]. by rewrite loadNodeChildren_writeBack, Hprep.
Qed.

(** C7 (error atomicity).  When the pattern query issued for an unloaded
    node throws (the subject query of an out-group, the object query of
    an in-group, the object or subject query of a PredicateGroup), the
    call of [loadNodeChildren] ends in its [catch] block and commits
    nothing: the node map is unchanged, the target node keeps its
    unloaded record, the failed request writes nothing whatever the state
    has become in the meantime, and a later expansion of the same node
    behaves, for any dataset, exactly as on the state before the
    failure. *)
Theorem failed_query_commits_nothing
    ds (nodes : gmap NodeId NodeData) nodeId node :
  nodes !! nodeId = Some node → loaded node = false →
  (type node = TOut ∧ ds (Some (Rdf.namedNode (iri node))) None None = Threw)
  ∨ (type node = TIn ∧ ds None None (Some (Rdf.namedNode (iri node))) = Threw)
  ∨ (type node = TPredicate ∧ iri node ≠ ""%string ∧
     ∃ p, predicate node = Some p ∧ p ≠ ""%string ∧
          ((parentType node = Some DirOut ∧
            ds (Some (Rdf.namedNode (iri node))) (Some (Rdf.namedNode p)) None
              = Threw)
           ∨ (parentType node ≠ Some DirOut ∧
              ds None (Some (Rdf.namedNode p)) (Some (Rdf.namedNode (iri node)))
                = Threw))) →
  loadNodeChildrenOutcome (Some ds) nodes nodeId = (nodes, Caught) ∧
  loadNodeChildren (Some ds) nodes nodeId = nodes ∧
  loadNodeChildren (Some ds) nodes nodeId !! nodeId = Some node ∧
  (∀ prevNodes,
     writeBack (prepare (Some ds) nodes nodeId) nodeId prevNodes = prevNodes) ∧
  (∀ dataset',
     loadNodeChildrenOutcome dataset'
       (loadNodeChildren (Some ds) nodes nodeId) nodeId
     = loadNodeChildrenOutcome dataset' nodes nodeId).
Proof.
  intros Hn Hl Hq.
  pose proof (query_threw_caught ds nodes nodeId node Hn Hl Hq) as Hout.
  destruct (caught_commits_nothing (Some ds) nodes nodeId) as [Hprep Hsame];
    [by rewrite Hout|].
  split_and!; [done|done|by rewrite Hsame| |].
  - intros prevNodes. by rewrite Hprep.
  - intros dataset'. by rewrite Hsame.
Qed.

(** Expanding the out-group of [ex:a] against a source that throws. *)
Lemma failed_query_commits_nothing_witness :
  loadNodeChildrenOutcome (Some Rdf.failing)
    (loadNodeChildren None (handleLoadRoot "ex:a") rootId) outId
  = (loadNodeChildren None (handleLoadRoot "ex:a") rootId, Caught).
Proof.
  apply (failed_query_commits_nothing Rdf.failing
           (loadNodeChildren None (handleLoadRoot "ex:a") rootId) outId
           (groupNode TOut "ex:a" rootId));
    [vm_compute; reflexivity | reflexivity | left; split; reflexivity].
Defined.

End GraphBrowserFacts.

(** ** The specialized traversal *)

Section SpecializedFacts.
Import SpecializedGraphBrowser.

Lemma writeBack_loaded (nodes : gmap string SpecializedNode) i node lbl related :
  nodes !! i = Some node → loaded node = true →
  writeBack i lbl related nodes = nodes ∧ writes i nodes = false.
Proof. intros Hn Hl. unfold writeBack, writes. by rewrite Hn, Hl. Qed.

Lemma loadNode_loaded dataset direction predicateIri
    (nodes : gmap string SpecializedNode) i node :
  nodes !! i = Some node → loaded node = true →
  loadNode dataset direction predicateIri nodes i = nodes.
Proof.
  intros Hn Hl. unfold loadNode. destruct dataset as [ds|]; [|done].
  destruct (loadLabel (Some ds) i) as [lbl|]; [|done].
  destruct (match direction with
            | DirIn => loadParents (Some ds) predicateIri i
            | DirOut => loadChildren (Some ds) predicateIri i
            end) as [related|]; [|done].
  destruct (writeBack_loaded nodes i node lbl related Hn Hl) as [-> ->]. done.
Qed.

Lemma keyed_insert (nodes : gmap string SpecializedNode) k node :
  keyed nodes → iri node = k → keyed (<[k := node]> nodes).
Proof.
  intros Hk Hi k' node'. rewrite lookup_insert.
  case_decide; [intros [= <-]; congruence|apply Hk].
Qed.

Lemma keyed_writeBack nodes i lbl related :
  keyed nodes → keyed (writeBack i lbl related nodes).
Proof.
  intros Hk. unfold writeBack.
  destruct (nodes !! i) as [existing|] eqn:He; [destruct (loaded existing)|];
    try done; by apply keyed_insert.
Qed.

Lemma keyed_mergeLabel nodes entry : keyed nodes → keyed (mergeLabel nodes entry).
Proof.
  intros Hk. destruct entry as [childIri lbl]. unfold mergeLabel.
  destruct (nodes !! childIri) as [existing|] eqn:He; apply keyed_insert; try done.
  simpl. by apply Hk.
Qed.

Lemma keyed_mergeLabels nodes related labels :
  keyed nodes → keyed (mergeLabels related labels nodes).
Proof.
  unfold mergeLabels. generalize (zip related labels). intros entries.
  revert nodes. induction entries as [|e entries IH]; intros nodes Hk; simpl;
    [done|]. apply IH. by apply keyed_mergeLabel.
Qed.

Lemma reachable_keyed start nodes : reachable start nodes → keyed nodes.
Proof.
  induction 1 as [|nodes i lbl related _ IH|nodes related labels _ IH].
  - intros k node. unfold initialNodes. rewrite lookup_singleton.
    case_decide; [|done]. by intros [= <-].
  - by apply keyed_writeBack.
  - by apply keyed_mergeLabels.
Qed.

Lemma loadNode_reachable start dataset direction predicateIri nodes i :
  reachable start nodes →
  reachable start (loadNode dataset direction predicateIri nodes i).
Proof.
  intros Hr. unfold loadNode. destruct dataset as [ds|]; [|done].
  destruct (loadLabel (Some ds) i) as [lbl|]; [|done].
  destruct (match direction with
            | DirIn => loadParents (Some ds) predicateIri i
            | DirOut => loadChildren (Some ds) predicateIri i
            end) as [related|]; [|done].
  destruct (writes i nodes && bool_decide (0 < length related));
    [|by constructor].
  destruct (loadLabels (Some ds) related) as [labels|]; by repeat constructor.
Qed.

Lemma mergeLabel_relabel (nodes : gmap string SpecializedNode) c lbl :
  mergeLabel nodes (c, lbl) = <[c := relabel c lbl (nodes !! c)]> nodes.
Proof. unfold mergeLabel, relabel. by destruct (nodes !! c). Qed.

Lemma relabel_relabel c lbl lbl' old :
  relabel c lbl' (Some (relabel c lbl old)) = relabel c lbl' old.
Proof. by destruct old. Qed.

Lemma foldl_mergeLabel_notin entries (nodes : gmap string SpecializedNode) k :
  k ∉ entries.*1 → foldl mergeLabel nodes entries !! k = nodes !! k.
Proof.
  revert nodes. induction entries as [|[c lbl] entries IH]; intros nodes Hk;
    cbn [foldl]; [done|].
  rewrite fmap_cons in Hk. apply not_elem_of_cons in Hk as [Hk1 Hk2].
  rewrite IH, mergeLabel_relabel by done. by rewrite lookup_insert_ne.
Qed.

Lemma foldl_mergeLabel_in entries (nodes : gmap string SpecializedNode) c :
  c ∈ entries.*1 →
  ∃ lbl, (c, lbl) ∈ entries ∧
         foldl mergeLabel nodes entries !! c = Some (relabel c lbl (nodes !! c)).
Proof.
  induction entries as [|[c' lbl'] entries IH] using rev_ind; intros Hc.
  - by apply elem_of_nil in Hc.
  - rewrite foldl_app. cbn [foldl]. rewrite mergeLabel_relabel.
    destruct (decide (c' = c)) as [->|Hne].
    + exists lbl'. split; [apply elem_of_app; right; apply list_elem_of_here|].
      rewrite lookup_insert_eq. f_equal.
      destruct (decide (c ∈ entries.*1)) as [Hin|Hnotin].
      * destruct (IH Hin) as (lbl & _ & ->). apply relabel_relabel.
      * by rewrite foldl_mergeLabel_notin.
    + rewrite lookup_insert_ne by done.
      rewrite fmap_app in Hc. apply elem_of_app in Hc as [Hc|Hc].
      * destruct (IH Hc) as (lbl & Hin & Hl). exists lbl.
        split; [apply elem_of_app; by left|done].
      * simpl in Hc. apply list_elem_of_singleton in Hc. congruence.
Qed.

(** C8 (identity memoization).  In every state a traversal can reach,
    under any interleaving of its write-backs, each record is stored
    under its own IRI, so two records with the same IRI are one entry of
    the node map.  A children resolution of [i] that writes stores its
    label and children in the entry of [i]; a label resolution for a
    discovered child [c] stores the label in the entry of [c], keeping
    the loaded flag and the children of a record that is already there
    (whichever parent discovered [c] before) and creating an unloaded
    record only when there is none; entries of other IRIs are not
    touched.  Sequential calls of [loadNode] stay within these states. *)
Theorem identity_memoization start (nodes : gmap string SpecializedNode) :
  reachable start nodes →
  (∀ k node, nodes !! k = Some node → iri node = k) ∧
  (∀ k1 k2 n1 n2, nodes !! k1 = Some n1 → nodes !! k2 = Some n2 →
     iri n1 = iri n2 → k1 = k2 ∧ n1 = n2) ∧
  (∀ i lbl related,
     writes i nodes = true →
     writeBack i lbl related nodes
     = <[i := mkSpecializedNode i lbl true (Some related)]> nodes) ∧
  (∀ related labels c,
     length labels = length related → c ∈ related →
     ∃ lbl, (c, lbl) ∈ zip related labels ∧
            mergeLabels related labels nodes !! c
            = Some (relabel c lbl (nodes !! c))) ∧
  (∀ related labels k,
     k ∉ related → mergeLabels related labels nodes !! k = nodes !! k) ∧
  (∀ dataset direction predicateIri i,
     reachable start (loadNode dataset direction predicateIri nodes i)).
Proof.
  intros Hr. pose proof (reachable_keyed _ _ Hr) as Hk. split_and!.
  - exact Hk.
  - intros k1 k2 n1 n2 H1 H2 Hi.
    assert (k1 = k2) as -> by (rewrite <- (Hk _ _ H1), <- (Hk _ _ H2); done).
    split; [done|congruence].
  - intros i lbl related Hw. unfold writes in Hw. unfold writeBack.
    destruct (nodes !! i) as [existing|]; [|done].
    by destruct (loaded existing).
  - intros related labels c Hlen Hc. unfold mergeLabels.
    apply foldl_mergeLabel_in. rewrite fst_zip by lia. done.
  - intros related labels k Hk'. unfold mergeLabels.
    apply foldl_mergeLabel_notin. intros Hin. apply Hk'.
    apply list_elem_of_fmap in Hin as ([c lbl] & -> & Hin).
    by apply elem_of_zip_l in Hin.
  - intros. by apply loadNode_reachable.
Qed.

(** After the start node [ex:a] has been expanded along [ex:knows], the
    discovered [ex:b] is stored under its own IRI. *)
Lemma identity_memoization_witness :
  ∃ node,
    loadNode (Some (Rdf.ofQuads Samples.knows)) DirOut "ex:knows"
      (initialNodes "ex:a") "ex:a" !! "ex:b"%string = Some node ∧
    iri node = "ex:b"%string.
Proof.
  exists (mkSpecializedNode "ex:b" None false None).
  split; [vm_compute; reflexivity|].
  apply (proj1 (identity_memoization "ex:a"
                  (loadNode (Some (Rdf.ofQuads Samples.knows)) DirOut "ex:knows"
                     (initialNodes "ex:a") "ex:a")
                  (loadNode_reachable _ _ _ _ _ _ (reach_init "ex:a")))
               "ex:b"%string).
  vm_compute; reflexivity.
Defined.

End SpecializedFacts.

(** ** The focus registry *)

Section BookmarkFacts.
Import BookmarkStore.

(** C10, as amended.  [fillFocusedInput] leaves the whole state
    unchanged when [lastFocusedInputId] is falsy, that is [null] or the
    empty string; when it is a non-empty id, the field entry of that id
    becomes the given IRI and the bookmarks, [lastFocusedInputId] and
    every other field entry are unchanged. *)
Theorem fillFocusedInput_frame (i : string) (state : State) :
  (truthy (lastFocusedInputId state) = false → fillFocusedInput i state = state) ∧
  (lastFocusedInputId state = None → fillFocusedInput i state = state) ∧
  (lastFocusedInputId state = Some ""%string → fillFocusedInput i state = state) ∧
  (∀ focused,
     lastFocusedInputId state = Some focused → focused ≠ ""%string →
     fieldStates (fillFocusedInput i state) = <[focused := i]> (fieldStates state) ∧
     fieldStates (fillFocusedInput i state) !! focused = Some i ∧
     (∀ other, other ≠ focused →
        fieldStates (fillFocusedInput i state) !! other
        = fieldStates state !! other) ∧
     bookmarks (fillFocusedInput i state) = bookmarks state ∧
     lastFocusedInputId (fillFocusedInput i state) = lastFocusedInputId state).
Proof.
  unfold fillFocusedInput. split_and!.
  - intros Ht. rewrite Ht. by destruct (lastFocusedInputId state).
  - by intros ->.
  - by intros ->.
  - intros focused Hf Hne. rewrite Hf, truthy_Some.
    rewrite bool_decide_eq_true_2 by done. simpl. split_and!; try done.
    + apply lookup_insert_eq.
    + intros other Ho. by apply lookup_insert_ne.
Qed.

(** Filling the root field of the graph browser. *)
Lemma fillFocusedInput_frame_witness :
  fieldStates (fillFocusedInput "ex:a"
                 (mkState [] ∅ (Some "graph-browser-root-iri"%string)))
    !! "graph-browser-root-iri"%string = Some "ex:a"%string.
Proof.
  destruct (fillFocusedInput_frame "ex:a"
              (mkState [] ∅ (Some "graph-browser-root-iri"%string)))
    as (_ & _ & _ & Hset).
  destruct (Hset "graph-browser-root-iri"%string) as (_ & Hfield & _);
    [reflexivity | discriminate |].
  exact Hfield.
Defined.

(** C10, as stated, fails: with the empty string recorded as the
    last-focused id, which is not [null], the field entry of that id is
    not set. *)
Lemma empty_focus_id_is_not_filled :
  lastFocusedInputId (mkState [] ∅ (Some ""%string)) ≠ None ∧
  fillFocusedInput "ex:a" (mkState [] ∅ (Some ""%string))
    = mkState [] ∅ (Some ""%string) ∧
  fieldStates (fillFocusedInput "ex:a" (mkState [] ∅ (Some ""%string)))
    !! ""%string ≠ Some "ex:a"%string.
Proof. split_and!; [done|done|]. by vm_compute. Qed.

End BookmarkFacts.

(** ** Idempotence of expansion, in both browsers *)

(** C6 (idempotence).  Expanding a node whose record is loaded is a
    no-op: in the general browser [loadNodeChildren] returns early and
    the node map is unchanged; in the specialized traversal the
    write-back of [loadNode] returns the previous map whatever the
    queries answered, and so does the whole call.  In particular the
    children of the node are unchanged. *)
Theorem expansion_of_loaded_node_is_noop
    dataset (nodes : gmap GraphBrowser.NodeId GraphBrowser.NodeData) nodeId node
    sdataset direction predicateIri
    (snodes : gmap string SpecializedGraphBrowser.SpecializedNode) i snode :
  nodes !! nodeId = Some node → GraphBrowser.loaded node = true →
  snodes !! i = Some snode → SpecializedGraphBrowser.loaded snode = true →
  GraphBrowser.loadNodeChildrenOutcome dataset nodes nodeId
    = (nodes, GraphBrowser.Returned) ∧
  GraphBrowser.loadNodeChildren dataset nodes nodeId = nodes ∧
  (∀ lbl related,
     SpecializedGraphBrowser.writeBack i lbl related snodes = snodes) ∧
  SpecializedGraphBrowser.loadNode sdataset direction predicateIri snodes i
    = snodes.
Proof.
  intros Hn Hl Hsn Hsl.
  assert (GraphBrowser.loadNodeChildrenOutcome dataset nodes nodeId
          = (nodes, GraphBrowser.Returned)) as Hout.
  { unfold GraphBrowser.loadNodeChildrenOutcome, GraphBrowser.prepare.
    by rewrite Hn, Hl. }
  split_and!.
  - done.
  - unfold GraphBrowser.loadNodeChildren. by rewrite Hout.
  - intros lbl related. by apply (writeBack_loaded snodes i snode).
  - by apply (loadNode_loaded _ _ _ snodes i snode).
Qed.

(** A loaded root in the general browser and a loaded start node in the
    specialized traversal. *)
Lemma expansion_of_loaded_node_is_noop_witness :
  GraphBrowser.loadNodeChildren (Some (Rdf.ofQuads Samples.knows))
    (GraphBrowser.loadNodeChildren None (GraphBrowser.handleLoadRoot "ex:a")
       Samples.rootId) Samples.rootId
  = GraphBrowser.loadNodeChildren None (GraphBrowser.handleLoadRoot "ex:a")
      Samples.rootId ∧
  SpecializedGraphBrowser.loadNode (Some (Rdf.ofQuads Samples.knows)) DirOut
    "ex:knows"
    {[ "ex:a"%string :=
         SpecializedGraphBrowser.mkSpecializedNode "ex:a" None true (Some []) ]}
    "ex:a"
  = {[ "ex:a"%string :=
         SpecializedGraphBrowser.mkSpecializedNode "ex:a" None true (Some []) ]}.
Proof.
  destruct (expansion_of_loaded_node_is_noop (Some (Rdf.ofQuads Samples.knows))
              (GraphBrowser.loadNodeChildren None
                 (GraphBrowser.handleLoadRoot "ex:a") Samples.rootId)
              Samples.rootId
              (GraphBrowser.markLoaded (GraphBrowser.rootNode "ex:a")
                 [Samples.inId; Samples.outId])
              (Some (Rdf.ofQuads Samples.knows)) DirOut "ex:knows"%string
              {[ "ex:a"%string :=
                   SpecializedGraphBrowser.mkSpecializedNode "ex:a" None true
                     (Some []) ]}
              "ex:a"%string
              (SpecializedGraphBrowser.mkSpecializedNode "ex:a" None true (Some [])))
    as (_ & Hg & _ & Hs);
    [vm_compute; reflexivity | reflexivity | vm_compute; reflexivity
    | reflexivity |].
  split; [exact Hg | exact Hs].
Defined.

(** ** The general browser: ids, session invariants and the remaining
    branches of an expansion *)

Section SessionFacts.
Import GraphBrowser.
Import Samples.

Lemma string_app_inj_l (s1 s2 t : string) :
  s1 +:+ t = s2 +:+ t → s1 = s2.
Proof.
  revert s2. induction s1 as [|a s1 IH]; intros [|b s2] H.
  - done.
  - exfalso. apply (f_equal String.length) in H.
    rewrite !string_app_length in H. simpl in H. lia.
  - exfalso. apply (f_equal String.length) in H.
    rewrite !string_app_length in H. simpl in H. lia.
  - change (String a (s1 +:+ t) = String b (s2 +:+ t)) in H.
    injection H as -> H. f_equal. by apply IH.
Qed.

Lemma getNodeId_base_nonempty t i p : getNodeId t i p None ≠ ""%string.
Proof.
  unfold getNodeId. destruct p as [pr|]; [destruct (truthy (Some pr))|];
    by destruct t.
Qed.

Lemma getNodeId_Some_parent t i p (parent : NodeId) :
  parent ≠ ""%string →
  getNodeId t i p (Some parent) = parent +:+ "->" +:+ getNodeId t i p None.
Proof.
  intros Hp. by destruct parent.
Qed.

(** X1 (path ids).  The id of a child is the id of its parent, when
    that is not empty, followed by [->] and the child's own part; so it
    is longer than the parent's id by more than two characters, differs
    from it, and for one type, IRI and predicate the child ids under
    two parents are equal only if the parents' ids are. *)
Theorem child_ids_extend_parent t i p (parent : NodeId) :
  parent ≠ ""%string →
  getNodeId t i p (Some parent) = parent +:+ "->" +:+ getNodeId t i p None ∧
  String.length parent + 2 < String.length (getNodeId t i p (Some parent)) ∧
  getNodeId t i p (Some parent) ≠ parent ∧
  (∀ parent' : NodeId,
     parent' ≠ ""%string →
     getNodeId t i p (Some parent) = getNodeId t i p (Some parent') →
     parent = parent').
Proof.
  intros Hp. pose proof (getNodeId_Some_parent t i p parent Hp) as Heq.
  split_and!.
  - done.
  - assert (0 < String.length (getNodeId t i p None)) as Hlen.
    { pose proof (getNodeId_base_nonempty t i p) as Hb.
      destruct (getNodeId t i p None); [done|]. simpl. lia. }
    rewrite Heq, !string_app_length.
    change (String.length "->") with 2. lia.
  - apply getNodeId_child_ne.
  - intros parent' Hp' H. rewrite Heq, (getNodeId_Some_parent _ _ _ parent') in H
      by done.
    by apply string_app_inj_l in H.
Qed.

(** The in-group of the root [ex:a]. *)
Lemma child_ids_extend_parent_witness :
  String.length rootId + 2 < String.length inId.
Proof.
  apply (child_ids_extend_parent TIn "ex:a" None rootId). done.
Defined.

Lemma foldl_insert_lookup_inv {A} (f : A → NodeId) (g : A → NodeData)
    (l : list A) (m : gmap NodeId NodeData) k n :
  foldl (λ acc y, <[f y := g y]> acc) m l !! k = Some n →
  m !! k = Some n ∨ ∃ x, x ∈ l ∧ k = f x ∧ n = g x.
Proof.
  revert m. induction l as [|z l IH]; intros m H; simpl in H; [by left|].
  apply IH in H as [H|(x & Hx & -> & ->)].
  - rewrite lookup_insert in H. case_decide as Hz.
    + injection H as <-. right. exists z. split; [apply list_elem_of_here|done].
    + by left.
  - right. exists x. split; [by apply list_elem_of_further|done].
Qed.

Lemma setIfAbsent_lookup_inv id node (m : gmap NodeId NodeData) k n :
  setIfAbsent id node m !! k = Some n →
  m !! k = Some n ∨ (k = id ∧ n = node).
Proof.
  unfold setIfAbsent. destruct (m !! id) eqn:Hid; [by left|].
  rewrite lookup_insert. case_decide; [|by left].
  intros [= <-]. by right.
Qed.

Lemma foldl_setIfAbsent_lookup_inv {A} (f : A → NodeId) (g : A → NodeData)
    (l : list A) (m : gmap NodeId NodeData) k n :
  foldl (λ acc y, setIfAbsent (f y) (g y) acc) m l !! k = Some n →
  m !! k = Some n ∨ ∃ x, x ∈ l ∧ k = f x ∧ n = g x.
Proof.
  revert m. induction l as [|z l IH]; intros m H; simpl in H; [by left|].
  apply IH in H as [H|(x & Hx & -> & ->)].
  - apply setIfAbsent_lookup_inv in H as [H|[-> ->]]; [by left|].
    right. exists z. split; [apply list_elem_of_here|done].
  - right. exists x. split; [by apply list_elem_of_further|done].
Qed.

Lemma foldl_setIfAbsent_is_Some {A} (f : A → NodeId) (g : A → NodeData)
    (l : list A) (m : gmap NodeId NodeData) x :
  x ∈ l → is_Some (foldl (λ acc y, setIfAbsent (f y) (g y) acc) m l !! f x).
Proof.
  revert m. induction l as [|z l IH]; intros m Hx; simpl.
  - by apply elem_of_nil in Hx.
  - apply elem_of_cons in Hx as [->|Hx]; [|by apply IH].
    assert (is_Some (setIfAbsent (f z) (g z) m !! f z)) as [v Hv].
    { unfold setIfAbsent. destruct (m !! f z) eqn:Hz; [by rewrite Hz|].
      rewrite lookup_insert_eq. eauto. }
    exists v. by apply foldl_setIfAbsent_lookup_Some.
Qed.

(** The shape of the entries of a fold of object nodes. *)
Lemma object_fold_entries nodeId (mk : ObjInfo → NodeData) objs k n :
  (∀ o, childEntry nodeId (objectId nodeId o) (mk o)) →
  foldl (λ acc o, setIfAbsent (objectId nodeId o) (mk o) acc) ∅ objs !! k
    = Some n →
  childEntry nodeId k n.
Proof.
  intros Hmk [H|(o & _ & -> & ->)]%foldl_setIfAbsent_lookup_inv; [|done].
  by rewrite lookup_empty in H.
Qed.

Lemma object_fold_children nodeId (mk : ObjInfo → NodeData) objs c :
  (∀ o, childEntry nodeId (objectId nodeId o) (mk o)) →
  c ∈ objectId nodeId <$> objs →
  ∃ n, foldl (λ acc o, setIfAbsent (objectId nodeId o) (mk o) acc) ∅ objs !! c
       = Some n ∧ childEntry nodeId c n.
Proof.
  intros Hmk (o & -> & Ho)%list_elem_of_fmap.
  destruct (foldl_setIfAbsent_is_Some (objectId nodeId) mk objs ∅ o Ho)
    as [n Hn].
  exists n. split; [done|]. by eapply object_fold_entries.
Qed.

Lemma literalObject_childEntry nodeId o :
  childEntry nodeId (objectId nodeId o) (literalObject nodeId o).
Proof. done. Qed.

Lemma mixedObject_childEntry nodeId o :
  childEntry nodeId (objectId nodeId o) (mixedObject nodeId o).
Proof. done. Qed.

Lemma subjectObject_childEntry nodeId o :
  childEntry nodeId (objectId nodeId o) (subjectObject nodeId o).
Proof. done. Qed.

Lemma group_fold_entries nodeId i d predicates k n :
  foldl (addPredicateNode nodeId i d) (∅, []) predicates = (k, n) →
  (∀ key r, k !! key = Some r → childEntry nodeId key r) ∧
  (∀ c, c ∈ n → ∃ r, k !! c = Some r ∧ childEntry nodeId c r).
Proof.
  rewrite foldl_addPredicateNode. intros [= <- <-]. split.
  - intros key r [H|(p & _ & -> & ->)]%foldl_insert_lookup_inv; [|done].
    by rewrite lookup_empty in H.
  - intros c (p & -> & Hp)%list_elem_of_fmap. simpl.
    exists (predicateNode i p d nodeId). split; [|done].
    apply (foldl_insert_lookup_in
             (λ p, getNodeId TPredicate i (Some p) (Some nodeId))
             (λ p, predicateNode i p d nodeId)); [|done].
    intros q _ Hq. apply getNodeId_predicate_inj in Hq. by subst.
Qed.

Lemma two_groups_entries nodeId i (nn : gmap NodeId NodeData) :
  nn = <[getNodeId TOut i None (Some nodeId) := groupNode TOut i nodeId]>
         (<[getNodeId TIn i None (Some nodeId) := groupNode TIn i nodeId]> ∅) →
  (∀ key r, nn !! key = Some r → childEntry nodeId key r) ∧
  (∀ c, c ∈ [getNodeId TIn i None (Some nodeId);
             getNodeId TOut i None (Some nodeId)] →
        ∃ r, nn !! c = Some r ∧ childEntry nodeId c r).
Proof.
  intros ->. split.
  - intros key r. rewrite lookup_insert. case_decide as H1.
    { intros [= <-]. by subst key. }
    rewrite lookup_insert. case_decide as H2.
    { intros [= <-]. by subst key. }
    by rewrite lookup_empty.
  - intros c [->|[->|[]%elem_of_nil]%elem_of_cons]%elem_of_cons.
    + exists (groupNode TIn i nodeId). split; [|done].
      rewrite lookup_insert_ne by (symmetry; apply getNodeId_in_ne_out).
      apply lookup_insert_eq.
    + exists (groupNode TOut i nodeId). split; [|done]. apply lookup_insert_eq.
Qed.

Lemma expandObjects_entries nodeId node objects :
  type node = TPredicate →
  (∀ key r, (expandObjects nodeId node objects).1 !! key = Some r →
     (key = nodeId ∧ selfEntry node (expandObjects nodeId node objects).2 r)
     ∨ childEntry nodeId key r) ∧
  (∀ c, c ∈ (expandObjects nodeId node objects).2 →
        ∃ r, (expandObjects nodeId node objects).1 !! c = Some r
             ∧ childEntry nodeId c r).
Proof.
  intros Ht.
  assert ((∃ o, objects = [o] ∧ oIsLiteral o = true)
          ∨ (∀ o, objects = [o] → oIsLiteral o = false))
    as [(o & -> & Hlit)|Hmany].
  { destruct objects as [|o [|o2 rest]]; [by right| |by right].
    destruct (oIsLiteral o) eqn:Hlit; [left; eauto|right].
    by intros o' [= <-]. }
  - rewrite expandObjects_single by done. simpl. split.
    + intros key r. rewrite lookup_singleton. case_decide; [|done].
      intros [= <-]. left. split; [done|]. right. left. eauto.
    + by intros c []%elem_of_nil.
  - rewrite expandObjects_children by done. simpl.
    set (mk := λ o, if forallb oIsLiteral objects
                    then literalObject nodeId o else mixedObject nodeId o).
    assert (∀ o, childEntry nodeId (objectId nodeId o) (mk o)) as Hmk.
    { intros o. unfold mk. by destruct (forallb oIsLiteral objects). }
    split.
    + intros key r. rewrite lookup_insert. case_decide as Hk.
      * intros [= <-]. left. split; [done|]. right. right. eauto.
      * intros H. right. by apply (object_fold_entries nodeId mk objects).
    + intros c Hc.
      destruct (object_fold_children nodeId mk objects c Hmk Hc) as (r & Hr & He).
      exists r. split; [|done]. rewrite lookup_insert_ne; [done|].
      intros <-. apply list_elem_of_fmap in Hc as (o & Ho & _).
      symmetry in Ho. by apply objectId_ne in Ho.
Qed.

(** What a prepared request holds. *)
Lemma prepare_ready_entries dataset (snapshot : gmap NodeId NodeData) nodeId nn ch :
  prepare dataset snapshot nodeId = Ready nn ch →
  ∃ node, snapshot !! nodeId = Some node ∧ loaded node = false ∧
    (∀ key r, nn !! key = Some r →
       (key = nodeId ∧ selfEntry node ch r) ∨ childEntry nodeId key r) ∧
    (∀ c, c ∈ ch → ∃ r, nn !! c = Some r ∧ childEntry nodeId c r).
Proof.
  unfold prepare. destruct (snapshot !! nodeId) as [node|] eqn:Hn; [|done].
  destruct (loaded node) eqn:Hl; [done|]. intros H.
  exists node. split; [done|]. split; [done|].
  destruct (type node) eqn:Ht.
  - injection H as <- <-.
    destruct (two_groups_entries nodeId (iri node) _ eq_refl) as [H1 H2].
    split; [|done]. intros key r Hr. right. by apply H1.
  - destruct (loadIncomingPredicates dataset (iri node)) as [predicates|];
      [|done].
    destruct (foldl (addPredicateNode nodeId (iri node) DirIn) (∅, []) predicates)
      as [k n] eqn:Hf. injection H as <- <-.
    destruct (group_fold_entries _ _ _ _ _ _ Hf) as [H1 H2].
    split; [|done]. intros key r Hr. right. by apply H1.
  - destruct (loadOutgoingPredicates dataset (iri node)) as [predicates|];
      [|done].
    destruct (foldl (addPredicateNode nodeId (iri node) DirOut) (∅, []) predicates)
      as [k n] eqn:Hf. injection H as <- <-.
    destruct (group_fold_entries _ _ _ _ _ _ Hf) as [H1 H2].
    split; [|done]. intros key r Hr. right. by apply H1.
  - assert (nn = ∅ ∧ ch = [] ∨
            (∃ objects, nn = (expandObjects nodeId node objects).1
                        ∧ ch = (expandObjects nodeId node objects).2) ∨
            (∃ subjects,
               (nn, ch) = foldl (addObjectNode nodeId (subjectObject nodeId))
                            (∅, []) ((λ s, mkObjInfo s false) <$> subjects)))
      as [[-> ->]|[(objects & -> & ->)|(subjects & Heq)]].
    { destruct (predicate node) as [p|]; [|injection H as <- <-; by left].
      destruct (negb (iri node =? "")%string && truthy (Some p));
        [|injection H as <- <-; by left].
      case_bool_decide.
      - destruct (loadObjects dataset (iri node) p defaultLimit) as [objects|];
          [|done]. injection H as <- <-. right. left. eauto.
      - destruct (loadSubjects dataset (iri node) p defaultLimit) as [subjects|];
          [|done]. injection H as <- <-. right. right. exists subjects.
        by destruct (foldl _ _ _). }
    + split; [intros key r; by rewrite lookup_empty|by intros c []%elem_of_nil].
    + by apply expandObjects_entries.
    + rewrite foldl_addObjectNode in Heq. injection Heq as -> ->. split.
      * intros key r Hr. right.
        eapply object_fold_entries; [|done]. apply subjectObject_childEntry.
      * intros c Hc. apply object_fold_children; [|done].
        apply subjectObject_childEntry.
  - case_bool_decide.
    + injection H as <- <-. split; [|by intros c []%elem_of_nil].
      intros key r. rewrite lookup_insert. case_decide;
        [|by rewrite lookup_empty].
      intros [= <-]. left. split; [done|]. by left.
    + assert (nn = setIfAbsent (getNodeId TOut (iri node) None (Some nodeId))
                     (groupNode TOut (iri node) nodeId)
                     (setIfAbsent (getNodeId TIn (iri node) None (Some nodeId))
                        (groupNode TIn (iri node) nodeId) ∅)) as Hnn
        by congruence.
      assert (ch = [getNodeId TIn (iri node) None (Some nodeId);
                    getNodeId TOut (iri node) None (Some nodeId)]) as ->
        by congruence.
      assert (nn = <[getNodeId TOut (iri node) None (Some nodeId)
                     := groupNode TOut (iri node) nodeId]>
                     (<[getNodeId TIn (iri node) None (Some nodeId)
                        := groupNode TIn (iri node) nodeId]> ∅)) as Heq.
      { rewrite Hnn. unfold setIfAbsent. rewrite lookup_empty.
        by rewrite lookup_insert_ne, lookup_empty
          by apply getNodeId_in_ne_out. }
      destruct (two_groups_entries nodeId (iri node) nn Heq) as [H1 H2].
      split; [|done]. intros key r Hr. right. by apply H1.
Qed.

Lemma commit_lookup nodeId (nn : gmap NodeId NodeData) ch prev k r :
  commit nodeId nn ch prev !! k = Some r →
  (k = nodeId ∧ ∃ u, (nn ∪ prev) !! nodeId = Some u ∧
                     singleLiteralValue u = None ∧ r = markLoaded u ch)
  ∨ (nn ∪ prev) !! k = Some r.
Proof.
  unfold commit. rewrite mergeEntries_union.
  destruct ((nn ∪ prev) !! nodeId) as [u|] eqn:Hu; [|by right].
  destruct (singleLiteralValue u) eqn:Hs; [by right|].
  rewrite lookup_insert. case_decide as Hk; [|by right].
  intros [= <-]. left. split; [done|]. eauto.
Qed.

Lemma commit_keeps_domain nodeId (nn : gmap NodeId NodeData) ch prev k :
  is_Some ((nn ∪ prev) !! k) → is_Some (commit nodeId nn ch prev !! k).
Proof.
  intros Hk. unfold commit. rewrite mergeEntries_union.
  destruct ((nn ∪ prev) !! nodeId) as [u|] eqn:Hu; [|done].
  destruct (singleLiteralValue u) eqn:Hs; [done|].
  rewrite lookup_insert. case_decide; [eauto|done].
Qed.

Lemma selfEntry_fields node ch r :
  selfEntry node ch r →
  type r = type node ∧ iri r = iri node ∧ predicate r = predicate node ∧
  parentNodeId r = parentNodeId node.
Proof. by intros [[-> _]|[(v & objs & -> & _)|(objs & -> & _)]]. Qed.

Lemma commit_invariant dataset snapshot nodeId nn ch prev :
  sessionInvariant snapshot → sessionInvariant prev →
  prepare dataset snapshot nodeId = Ready nn ch →
  sessionInvariant (commit nodeId nn ch prev).
Proof.
  intros (Sk & _ & _ & Sb & _) (Pk & Pr & Pe & Pb & Pc) Hprep.
  destruct (prepare_ready_entries _ _ _ _ _ Hprep)
    as (node & Hn & Hl & Hnn & Hch).
  destruct (Sb _ _ Hn Hl) as [Hnc Hns].
  pose proof (Sk _ _ Hn) as Hnk.
  (* the entries of the merged map *)
  assert (∀ k r, (nn ∪ prev) !! k = Some r →
            (k = nodeId ∧ selfEntry node ch r) ∨ childEntry nodeId k r
            ∨ prev !! k = Some r) as Hu.
  { intros k r [Hr|[_ Hr]]%lookup_union_Some_raw; [|by right; right].
    destruct (Hnn _ _ Hr) as [?|?]; [by left|by right; left]. }
  assert (∀ k r, (nn ∪ prev) !! k = Some r →
            k = getNodeId (type r) (iri r) (predicate r) (parentNodeId r))
    as Hukey.
  { intros k r [[-> Hs]|[(Hk & Hp & _)|Hp]]%Hu.
    - destruct (selfEntry_fields _ _ _ Hs) as (-> & -> & -> & ->). done.
    - by rewrite Hp.
    - by apply Pk. }
  assert (∀ k r chs c, (nn ∪ prev) !! k = Some r → children r = Some chs →
            c ∈ chs → prev !! k = Some r) as Huch.
  { intros k r chs c [[-> Hs]|[(_ & _ & _ & Hc & _)|Hp]]%Hu Hchs Hin;
      [|congruence|done].
    destruct Hs as [[-> _]|[(v & objs & -> & _)|(objs & -> & _)]]; simpl in Hchs.
    - injection Hchs as <-. by apply elem_of_nil in Hin.
    - injection Hchs as <-. by apply elem_of_nil in Hin.
    - congruence. }
  split_and!.
  - intros k r [(-> & u & Hu' & _ & ->)|Hr]%commit_lookup.
    + simpl. by apply Hukey.
    + by apply Hukey.
  - intros k r chs c [(-> & u & Hu' & _ & ->)|Hr]%commit_lookup Hchs Hin.
    + simpl in Hchs. injection Hchs as <-.
      destruct (Hch _ Hin) as (rc & Hrc & _).
      apply commit_keeps_domain. rewrite lookup_union_l' by eauto. eauto.
    + apply commit_keeps_domain.
      pose proof (Huch _ _ _ _ Hr Hchs Hin) as Hp.
      destruct (Pr _ _ _ _ Hp Hchs Hin) as [rc Hrc].
      apply lookup_union_is_Some. eauto.
  - intros k r chs c [(-> & u & Hu' & _ & ->)|Hr]%commit_lookup Hchs Hin.
    + simpl in Hchs. injection Hchs as <-.
      destruct (Hch _ Hin) as (rc & _ & Hk & _). eauto.
    + pose proof (Huch _ _ _ _ Hr Hchs Hin) as Hp.
      by apply (Pe _ _ _ _ Hp Hchs Hin).
  - intros k r [(-> & u & Hu' & _ & ->)|Hr]%commit_lookup Hload; [done|].
    apply Hu in Hr as [[-> Hs]|[(_ & _ & _ & Hc & Hv)|Hp]];
      [|done|by eapply Pb].
    destruct Hs as [[-> _]|[(v & objs & -> & _)|(objs & -> & _)]]; done.
  - intros k r v [(-> & u & Hu' & Hsl & ->)|Hr]%commit_lookup Hv.
    { simpl in Hv. congruence. }
    apply Hu in Hr as [[-> Hs]|[(_ & _ & _ & _ & Hv')|Hp]];
      [|congruence|by eapply Pc].
    destruct Hs as [[-> _]|[(v' & objs & -> & _ & Ht)|(objs & -> & _)]];
      simpl in *; [congruence|done|congruence].
Qed.

Lemma handleLoadRoot_invariant rootIri : sessionInvariant (handleLoadRoot rootIri).
Proof.
  unfold handleLoadRoot.
  split_and!; intros k n; rewrite lookup_singleton; case_decide; try done.
  - by intros [= <-].
  - by intros ch c [= <-].
  - by intros ch c [= <-].
  - by intros [= <-].
  - by intros v [= <-].
Qed.

Lemma reachable_invariant rootIri nodes :
  reachable rootIri nodes → sessionInvariant nodes.
Proof.
  induction 1 as [|dataset snapshot nodeId prev _ IHs _ IHp].
  - apply handleLoadRoot_invariant.
  - unfold writeBack.
    destruct (prepare dataset snapshot nodeId) as [| | |nn ch] eqn:Hprep;
      [exact IHp..|].
    exact (commit_invariant _ _ _ _ _ _ IHs IHp Hprep).
Qed.

Lemma loadNodeChildren_reachable rootIri dataset nodes nodeId :
  reachable rootIri nodes →
  reachable rootIri (loadNodeChildren dataset nodes nodeId).
Proof.
  intros Hr. rewrite loadNodeChildren_writeBack. by constructor.
Qed.

(** X2 (session invariant, the tree).  In every state a session can
    reach, under any interleaving of its write-backs, each record is
    stored under the id composed from its own fields, each listed child
    has a record, and the child's id is composed onto the id of the
    node that lists it.  The state after one more expansion is again a
    state of the session. *)
Theorem session_tree_invariant rootIri (nodes : gmap NodeId NodeData) :
  reachable rootIri nodes →
  (∀ k n, nodes !! k = Some n →
     k = getNodeId (type n) (iri n) (predicate n) (parentNodeId n)) ∧
  (∀ k n ch c, nodes !! k = Some n → children n = Some ch → c ∈ ch →
     is_Some (nodes !! c) ∧ ∃ t i p, c = getNodeId t i p (Some k)) ∧
  (∀ dataset nodeId,
     reachable rootIri (loadNodeChildren dataset nodes nodeId)).
Proof.
  intros Hr. destruct (reachable_invariant _ _ Hr) as (Hk & Hres & Hext & _).
  split_and!.
  - exact Hk.
  - intros k n ch c Hn Hch Hc. split; [by eapply Hres|by eapply Hext].
  - intros. by apply loadNodeChildren_reachable.
Qed.

(** The session on [ex:a] after the root and its out-group were
    expanded. *)
Lemma session_tree_invariant_witness :
  reachable "ex:a"
    (loadNodeChildren None (outGroupExpanded (Rdf.ofQuads knows)) inId).
Proof.
  apply (session_tree_invariant "ex:a" (outGroupExpanded (Rdf.ofQuads knows))).
  unfold outGroupExpanded.
  apply loadNodeChildren_reachable, loadNodeChildren_reachable, reach_root.
Defined.

(** X3 (session invariant, the records).  In every state a session
    can reach, a record that is not loaded has no children list and no
    collapsed value, and a record with a collapsed value is a loaded
    predicate group with an empty children list, which the tree does
    not expand. *)
Theorem session_shape_invariant rootIri (nodes : gmap NodeId NodeData) k n :
  reachable rootIri nodes → nodes !! k = Some n →
  (loaded n = false → children n = None ∧ singleLiteralValue n = None) ∧
  (∀ v, singleLiteralValue n = Some v →
     type n = TPredicate ∧ loaded n = true ∧ children n = Some [] ∧
     expandable n = false).
Proof.
  intros Hr Hn. destruct (reachable_invariant _ _ Hr) as (_ & _ & _ & Hb & Hc).
  split.
  - by apply (Hb k).
  - intros v Hv. destruct (Hc k n v Hn Hv) as (Ht & Hl & Hch).
    split_and!; try done.
    unfold expandable, isSingleLiteralPredicate. by rewrite Ht, Hv.
Qed.

(** The unloaded out-group of the root, after the root was expanded. *)
Lemma session_shape_invariant_witness :
  children (groupNode TOut "ex:a" rootId) = None
  ∧ singleLiteralValue (groupNode TOut "ex:a" rootId) = None.
Proof.
  apply (session_shape_invariant "ex:a"
           (loadNodeChildren None (handleLoadRoot "ex:a") rootId) outId
           (groupNode TOut "ex:a" rootId)).
  - apply loadNodeChildren_reachable, reach_root.
  - vm_compute. reflexivity.
  - reflexivity.
Defined.

(** X4 (frame of a write-back).  A write-back deletes no record, and
    it leaves the entry of every key unchanged that is neither the
    expanded node's id nor an id composed onto it; so an expansion
    changes the node and ids below it at most. *)
Theorem write_back_frame
    dataset (snapshot prevNodes : gmap NodeId NodeData) nodeId :
  (∀ k, is_Some (prevNodes !! k) →
        is_Some (writeBack (prepare dataset snapshot nodeId) nodeId prevNodes !! k)) ∧
  (∀ k, k ≠ nodeId → (∀ t i p, k ≠ getNodeId t i p (Some nodeId)) →
        writeBack (prepare dataset snapshot nodeId) nodeId prevNodes !! k
        = prevNodes !! k) ∧
  (∀ k, loadNodeChildren dataset prevNodes nodeId !! k ≠ prevNodes !! k →
        k = nodeId ∨ ∃ t i p, k = getNodeId t i p (Some nodeId)).
Proof.
  assert (∀ snap k,
            writeBack (prepare dataset snap nodeId) nodeId prevNodes !! k
            = prevNodes !! k
            ∨ k = nodeId ∨ ∃ t i p, k = getNodeId t i p (Some nodeId)) as Hframe.
  { intros snap k. unfold writeBack.
    destruct (prepare dataset snap nodeId) as [| | |nn ch] eqn:Hprep;
      try by left.
    destruct (prepare_ready_entries _ _ _ _ _ Hprep) as (node & _ & _ & Hnn & _).
    destruct (decide (k = nodeId)) as [|Hk]; [by right; left|].
    destruct (nn !! k) as [r|] eqn:Hr.
    { destruct (Hnn _ _ Hr) as [[? _]|(Hc & _)]; [done|]. right. right. eauto. }
    left. unfold commit. rewrite mergeEntries_union.
    assert ((nn ∪ prevNodes) !! k = prevNodes !! k) as Hu
      by (by apply lookup_union_r).
    destruct ((nn ∪ prevNodes) !! nodeId) as [u|]; [|done].
    destruct (singleLiteralValue u); [done|].
    by rewrite lookup_insert_ne. }
  split_and!.
  - intros k Hk. unfold writeBack.
    destruct (prepare dataset snapshot nodeId) as [| | |nn ch]; try done.
    apply commit_keeps_domain. apply lookup_union_is_Some. by right.
  - intros k Hk Hnot.
    destruct (Hframe snapshot k) as [?|[?|(t & i & p & Heq)]]; [done|done|].
    by destruct (Hnot t i p).
  - intros k Hdiff. rewrite loadNodeChildren_writeBack in Hdiff.
    destruct (Hframe prevNodes k) as [?|?]; [done|done].
Qed.

(** X5 (literal values are terminal).  Expanding an unloaded literal
    Value node issues no query: the node is marked loaded with an empty
    children list, no record is added, and the tree expands the node
    neither before nor after. *)
Theorem literal_value_is_terminal
    dataset (nodes : gmap NodeId NodeData) nodeId node :
  nodes !! nodeId = Some node → type node = TObject →
  isLiteral node = Some true → loaded node = false →
  singleLiteralValue node = None →
  loadNodeChildrenOutcome dataset nodes nodeId
    = (<[nodeId := markLoaded node []]> nodes, Committed) ∧
  dom (loadNodeChildren dataset nodes nodeId) = dom nodes ∧
  expandable node = false ∧ expandable (markLoaded node []) = false.
Proof.
  intros Hn Ht Hlit Hl Hs.
  assert (prepare dataset nodes nodeId
          = Ready (<[nodeId := markLoaded node []]> ∅) []) as Hprep.
  { unfold prepare. rewrite Hn, Hl, Ht. by rewrite bool_decide_eq_true_2. }
  assert (loadNodeChildrenOutcome dataset nodes nodeId
          = (<[nodeId := markLoaded node []]> nodes, Committed)) as Hout.
  { rewrite (loadNodeChildren_ready _ _ _ _ _ Hprep). f_equal.
    unfold commit. rewrite mergeEntries_union, <- insert_union_l.
    rewrite (left_id_L ∅ (∪)), lookup_insert_eq. simpl. rewrite Hs.
    by rewrite insert_insert_eq. }
  split_and!.
  - done.
  - unfold loadNodeChildren. rewrite Hout. simpl. rewrite dom_insert_L.
    apply subseteq_union_1_L, singleton_subseteq_l. by apply elem_of_dom_2 in Hn.
  - unfold expandable, isLiteralObject. rewrite Ht, Hlit.
    by rewrite andb_false_r.
  - unfold expandable, isLiteralObject. simpl. rewrite Ht, Hlit.
    by rewrite andb_false_r.
Qed.

(** The Value node of ["Alice"] under the label group with two
    labels. *)
Lemma literal_value_is_terminal_witness :
  dom (loadNodeChildren None
         (groupExpanded (Rdf.ofQuads twoLabels) "rdfs:label")
         (objectId (groupId "rdfs:label") (mkObjInfo "Alice" true)))
  = dom (groupExpanded (Rdf.ofQuads twoLabels) "rdfs:label").
Proof.
  apply (literal_value_is_terminal None
           (groupExpanded (Rdf.ofQuads twoLabels) "rdfs:label")
           (objectId (groupId "rdfs:label") (mkObjInfo "Alice" true))
           (literalObject (groupId "rdfs:label") (mkObjInfo "Alice" true)));
    [vm_compute; reflexivity | reflexivity..].
Defined.

(** X6 (resource values expand like a root).  Expanding an unloaded
    Value node that is not a literal issues no query: an in-group and
    an out-group for the value's IRI are recorded under ids composed
    onto the node's own id, distinct from each other and from the
    node's id, and the node is marked loaded with the two as children.
    The prepared entries are those of a root record of the same IRI
    stored under that id. *)
Theorem resource_value_expands_like_root
    dataset (nodes : gmap NodeId NodeData) nodeId node :
  nodes !! nodeId = Some node → type node = TObject →
  isLiteral node ≠ Some true → loaded node = false →
  singleLiteralValue node = None →
  let inNodeId := getNodeId TIn (iri node) None (Some nodeId) in
  let outNodeId := getNodeId TOut (iri node) None (Some nodeId) in
  loadNodeChildrenOutcome dataset nodes nodeId
    = (<[nodeId := markLoaded node [inNodeId; outNodeId]]>
         (<[outNodeId := groupNode TOut (iri node) nodeId]>
            (<[inNodeId := groupNode TIn (iri node) nodeId]> nodes)),
       Committed) ∧
  inNodeId ≠ outNodeId ∧ inNodeId ≠ nodeId ∧ outNodeId ≠ nodeId ∧
  (∀ rootRecord,
     type rootRecord = TRoot → iri rootRecord = iri node →
     loaded rootRecord = false →
     prepare dataset (<[nodeId := rootRecord]> nodes) nodeId
     = prepare dataset nodes nodeId).
Proof.
  intros Hn Ht Hlit Hl Hs inNodeId outNodeId.
  assert (prepare dataset nodes nodeId
          = Ready (<[outNodeId := groupNode TOut (iri node) nodeId]>
                     (<[inNodeId := groupNode TIn (iri node) nodeId]> ∅))
                  [inNodeId; outNodeId]) as Hprep.
  { unfold prepare. rewrite Hn, Hl, Ht. rewrite bool_decide_eq_false_2 by done.
    unfold setIfAbsent. rewrite lookup_empty.
    by rewrite lookup_insert_ne, lookup_empty by apply getNodeId_in_ne_out. }
  split_and!.
  - rewrite (loadNodeChildren_ready _ _ _ _ _ Hprep). f_equal.
    rewrite (commit_fresh _ _ _ _ node); [|
      rewrite !lookup_insert_ne by apply getNodeId_child_ne;
      apply lookup_empty|done..].
    f_equal. by rewrite <- !insert_union_l, (left_id_L ∅ (∪)).
  - apply getNodeId_in_ne_out.
  - apply getNodeId_child_ne.
  - apply getNodeId_child_ne.
  - intros rootRecord Hrt Hri Hrl. rewrite Hprep.
    unfold prepare. rewrite lookup_insert_eq, Hrl, Hrt, Hri. done.
Qed.

(** The Value node of [ex:b] under the group of [ex:knows]. *)
Lemma resource_value_expands_like_root_witness :
  (loadNodeChildrenOutcome None
     (groupExpanded (Rdf.ofQuads knows) "ex:knows")
     (objectId (groupId "ex:knows") (mkObjInfo "ex:b" false))).2 = Committed.
Proof.
  destruct (resource_value_expands_like_root None
              (groupExpanded (Rdf.ofQuads knows) "ex:knows")
              (objectId (groupId "ex:knows") (mkObjInfo "ex:b" false))
              (mixedObject (groupId "ex:knows") (mkObjInfo "ex:b" false)))
    as [H _]; [vm_compute; reflexivity | reflexivity | discriminate
              | reflexivity | reflexivity |].
  rewrite H. reflexivity.
Defined.

Lemma subjectsLoop_spec limit count matches subjects :
  subjectsLoop limit count matches subjects =
  subjects ++ (Rdf.value <$>
               List.filter (λ t, bool_decide (Rdf.termType t = Rdf.NamedNode))
                 (Rdf.subject <$> take (limit - count) matches)).
Proof.
  revert count subjects.
  induction matches as [|quad rest IH]; intros count subjects; simpl.
  - by rewrite take_nil, app_nil_r.
  - case_bool_decide as Hc.
    + replace (limit - count) with 0 by lia. by rewrite app_nil_r.
    + replace (limit - count) with (S (limit - S count)) by lia.
      rewrite IH. simpl.
      destruct (bool_decide (Rdf.termType (Rdf.subject quad) = Rdf.NamedNode));
        [|done].
      by rewrite <- app_assoc.
Qed.

(** X7 (incoming predicate group).  Expanding an unloaded predicate
    group that is not out-direction queries the triples with the
    group's predicate and its IRI as object.  The children are the
    named-node subjects among the first 100 matches, in match order,
    at most 100; each is recorded as an unloaded resource Value node
    that the tree expands; the group is marked loaded and never
    collapsed, and every other record is unchanged. *)
Theorem incoming_predicate_group
    ds (nodes : gmap NodeId NodeData) nodeId node p matches :
  nodes !! nodeId = Some node → loaded node = false → type node = TPredicate →
  predicate node = Some p → p ≠ ""%string → iri node ≠ ""%string →
  parentType node ≠ Some DirOut → singleLiteralValue node = None →
  ds None (Some (Rdf.namedNode p)) (Some (Rdf.namedNode (iri node))) = Ok matches →
  let subjects :=
    Rdf.value <$>
      List.filter (λ t, bool_decide (Rdf.termType t = Rdf.NamedNode))
        (Rdf.subject <$> take 100 matches) in
  let childId := λ s, objectId nodeId (mkObjInfo s false) in
  let nodes' := loadNodeChildren (Some ds) nodes nodeId in
  (loadNodeChildrenOutcome (Some ds) nodes nodeId).2 = Committed ∧
  nodes' !! nodeId = Some (markLoaded node (childId <$> subjects)) ∧
  length subjects ≤ 100 ∧
  (∀ s, s ∈ subjects →
     nodes' !! childId s = Some (subjectObject nodeId (mkObjInfo s false)) ∧
     expandable (subjectObject nodeId (mkObjInfo s false)) = true) ∧
  (∀ k, k ≠ nodeId → k ∉ childId <$> subjects → nodes' !! k = nodes !! k).
Proof.
  intros Hn Hl Ht Hp Hpne Hine Hd Hs Hq subjects childId nodes'.
  assert (loadSubjects (Some ds) (iri node) p defaultLimit = Ok subjects) as Hsub.
  { unfold loadSubjects. rewrite Hq. simpl.
    by rewrite subjectsLoop_spec, Nat.sub_0_r. }
  set (nn := foldl (λ acc o, setIfAbsent (objectId nodeId o)
                               (subjectObject nodeId o) acc) ∅
               ((λ s, mkObjInfo s false) <$> subjects)).
  assert (prepare (Some ds) nodes nodeId = Ready nn (childId <$> subjects))
    as Hprep.
  { unfold prepare. rewrite Hn, Hl, Ht, Hp, Hsub, truthy_Some.
    rewrite (bool_decide_eq_true_2 (p ≠ ""%string)) by done.
    destruct (String.eqb_spec (iri node) ""); [done|]. simpl.
    rewrite bool_decide_eq_false_2 by done.
    rewrite foldl_addObjectNode. simpl. f_equal.
    by rewrite <- list_fmap_compose. }
  assert (nn !! nodeId = None) as Hself.
  { unfold nn. apply object_fold_lookup_self. }
  pose proof (loadNodeChildren_ready _ _ _ _ _ Hprep) as Hout.
  rewrite (commit_fresh _ _ _ _ node) in Hout by done.
  unfold nodes', loadNodeChildren. rewrite Hout. simpl. split_and!.
  - done.
  - apply lookup_insert_eq.
  - unfold subjects. rewrite length_fmap.
    etrans; [apply filter_length_bound|].
    rewrite length_fmap, length_take. lia.
  - intros s Hin. split; [|done].
    rewrite lookup_insert_ne by (symmetry; apply objectId_ne).
    apply lookup_union_Some_l. unfold nn.
    apply (foldl_setIfAbsent_lookup_in (objectId nodeId) (subjectObject nodeId)
             _ ∅ (mkObjInfo s false)); [| |apply lookup_empty].
    + intros y _ Hy. unfold objectId in Hy.
      apply getNodeId_object_inj in Hy. simpl in Hy.
      unfold subjectObject. by rewrite Hy.
    + by apply (list_elem_of_fmap_2 (λ s, mkObjInfo s false)).
  - intros k Hk Hnot. rewrite lookup_insert_ne by done.
    apply lookup_union_r. unfold nn.
    rewrite foldl_setIfAbsent_lookup_notin; [apply lookup_empty|].
    by rewrite <- list_fmap_compose.
Qed.

(** The in-direction group of [ex:knows] in a session on [ex:b]. *)
Lemma incoming_predicate_group_witness :
  loadNodeChildren (Some (Rdf.ofQuads knows))
    (inGroupExpanded (Rdf.ofQuads knows)) (incomingGroupId "ex:knows")
  !! objectId (incomingGroupId "ex:knows") (mkObjInfo "ex:a" false)
  = Some (subjectObject (incomingGroupId "ex:knows") (mkObjInfo "ex:a" false)).
Proof.
  destruct (incoming_predicate_group (Rdf.ofQuads knows)
              (inGroupExpanded (Rdf.ofQuads knows)) (incomingGroupId "ex:knows")
              (predicateNode "ex:b" "ex:knows" DirIn inIdB) "ex:knows" knows)
    as (_ & _ & _ & H & _);
    [vm_compute; reflexivity | reflexivity | reflexivity | reflexivity
    | discriminate | discriminate | discriminate | reflexivity
    | vm_compute; reflexivity |].
  apply (H "ex:a"%string). vm_compute. apply list_elem_of_here.
Defined.



Lemma filter_retained_none (ts : list Rdf.Term) :
  (∀ t, t ∈ ts → retained t = false) → List.filter retained ts = [].
Proof.
  induction ts as [|t ts IH]; intros Hall; simpl; [done|].
  rewrite (Hall t) by apply list_elem_of_here.
  apply IH. intros t' Ht'. apply Hall. by apply list_elem_of_further.
Qed.

(** X9 (no retained result).  When none of the first 100 matches of
    an out-direction predicate group has a named node or a literal as
    object (blank nodes, for instance), the group is marked loaded
    with an empty children list: no record is added and no value is
    collapsed onto the group. *)
Theorem unretained_matches_leave_group_empty
    ds (nodes : gmap NodeId NodeData) nodeId node p matches :
  nodes !! nodeId = Some node → loaded node = false → type node = TPredicate →
  predicate node = Some p → p ≠ ""%string → iri node ≠ ""%string →
  parentType node = Some DirOut → singleLiteralValue node = None →
  ds (Some (Rdf.namedNode (iri node))) (Some (Rdf.namedNode p)) None = Ok matches →
  (∀ q, q ∈ take 100 matches → retained (Rdf.object q) = false) →
  loadNodeChildrenOutcome (Some ds) nodes nodeId
    = (<[nodeId := markLoaded (withObjectInfo node []) []]> nodes, Committed) ∧
  dom (loadNodeChildren (Some ds) nodes nodeId) = dom nodes ∧
  singleLiteralValue (markLoaded (withObjectInfo node []) []) = None.
Proof.
  intros Hn Hl Ht Hp Hpne Hine Hd Hs Hq Hnone.
  assert (loadObjects (Some ds) (iri node) p defaultLimit = Ok []) as Hobj.
  { rewrite (loadObjects_Some _ _ _ _ _ Hq). rewrite filter_retained_none; [done|].
    intros t (q & -> & Hin)%list_elem_of_fmap. by apply Hnone. }
  assert (∀ o : ObjInfo, [] = [o] → oIsLiteral o = false) as Hmany by done.
  pose proof (loadNodeChildren_objects _ _ _ _ _ _
                Hn Hl Ht Hp Hpne Hine Hd Hs Hobj Hmany) as Hload.
  simpl in Hload. rewrite (left_id_L ∅ (∪)) in Hload.
  split_and!; [done| |done].
  unfold loadNodeChildren. rewrite Hload. simpl. rewrite dom_insert_L.
  apply subseteq_union_1_L, singleton_subseteq_l. by apply elem_of_dom_2 in Hn.
Qed.

(** A group whose three matches have blank nodes as objects. *)
Lemma unretained_matches_leave_group_empty_witness :
  dom (groupExpanded (Rdf.ofQuads (blanks 3)) "ex:p")
  = dom (outGroupExpanded (Rdf.ofQuads (blanks 3))).
Proof.
  destruct (unretained_matches_leave_group_empty (Rdf.ofQuads (blanks 3))
              (outGroupExpanded (Rdf.ofQuads (blanks 3))) (groupId "ex:p")
              (predicateNode "ex:a" "ex:p" DirOut outId) "ex:p" (blanks 3))
    as (_ & H & _);
    [vm_compute; reflexivity | reflexivity | reflexivity | reflexivity
    | discriminate | discriminate | reflexivity | reflexivity
    | vm_compute; reflexivity | |].
  - apply Forall_forall. apply (bool_decide_unpack _). by vm_compute.
  - unfold groupExpanded. exact H.
Defined.

(** X10 (write-back into a replaced session).  When the write-back of
    a root or direction-group expansion arrives in a state that has no
    record for the expanded node, the updater inserts the prepared
    child records and nothing else: the node itself gets no record, so
    each inserted child names a parent id that is not in the map. *)
Theorem stale_write_back_adds_orphans
    dataset (snapshot prevNodes : gmap NodeId NodeData) nodeId node :
  snapshot !! nodeId = Some node → loaded node = false →
  type node = TRoot ∨ type node = TIn ∨ type node = TOut →
  prevNodes !! nodeId = None →
  ∀ nn ch, prepare dataset snapshot nodeId = Ready nn ch →
    writeBack (prepare dataset snapshot nodeId) nodeId prevNodes = nn ∪ prevNodes ∧
    writeBack (prepare dataset snapshot nodeId) nodeId prevNodes !! nodeId = None ∧
    (∀ c, c ∈ ch →
       ∃ r, writeBack (prepare dataset snapshot nodeId) nodeId prevNodes !! c
            = Some r ∧ parentNodeId r = Some nodeId).
Proof.
  intros Hn Hl Ht Hprev nn ch Hprep.
  destruct (prepare_ready_entries _ _ _ _ _ Hprep) as (node' & Hn' & _ & Hnn & Hch).
  assert (node' = node) as -> by congruence.
  assert (nn !! nodeId = None) as Hself.
  { destruct (nn !! nodeId) as [r|] eqn:Hr; [|done].
    destruct (Hnn _ _ Hr) as [[_ Hs]|(Hk & _)].
    - exfalso.
      destruct Hs as [(_ & _ & Ht')|[(v & objs & _ & _ & Ht')|(objs & _ & Ht')]];
        destruct Ht as [Ht|[Ht|Ht]]; congruence.
    - symmetry in Hk. by apply getNodeId_child_ne in Hk. }
  assert (writeBack (prepare dataset snapshot nodeId) nodeId prevNodes
          = nn ∪ prevNodes) as Heq.
  { rewrite Hprep. unfold writeBack, commit. rewrite mergeEntries_union.
    by rewrite lookup_union_r, Hprev. }
  rewrite Heq. split_and!; [done| |].
  - by rewrite lookup_union_r.
  - intros c Hc. destruct (Hch c Hc) as (r & Hr & _ & Hp & _).
    exists r. split; [|done]. by apply lookup_union_Some_l.
Qed.

(** The out-group's expansion is prepared after the root was expanded
    and written back after the root was submitted again. *)
Lemma stale_write_back_adds_orphans_witness :
  writeBack
    (prepare (Some (Rdf.ofQuads knows))
       (loadNodeChildren None (handleLoadRoot "ex:a") rootId) outId)
    outId (handleLoadRoot "ex:a") !! outId = None.
Proof.
  edestruct (stale_write_back_adds_orphans (Some (Rdf.ofQuads knows))
               (loadNodeChildren None (handleLoadRoot "ex:a") rootId)
               (handleLoadRoot "ex:a") outId (groupNode TOut "ex:a" rootId))
    as (_ & H & _);
    [vm_compute; reflexivity | reflexivity | right; right; reflexivity
    | vm_compute; reflexivity | vm_compute; reflexivity |].
  exact H.
Defined.

End SessionFacts.

(** ** Abbreviated IRIs *)

Section DisplayFacts.
Import Stdlib.Strings.Ascii.
Import Display.

Lemma String_prefix_iff p s : String.prefix p s = true ↔ ∃ r, s = p +:+ r.
Proof.
  revert s. induction p as [|a p IH]; intros s.
  - split; [intros _; exists s; reflexivity|by destruct s].
  - destruct s as [|b s]; simpl; [split; [done|by intros [r ?]]|].
    destruct (Ascii.ascii_dec a b) as [->|Hne].
    + rewrite IH. split; intros [r Hr]; exists r.
      * by rewrite Hr.
      * by injection Hr.
    + split; [done|]. intros [r Hr]. injection Hr as ? ?. by subst.
Qed.

Lemma String_prefix_app p r : String.prefix p (p +:+ r) = true.
Proof. apply String_prefix_iff. by exists r. Qed.

Lemma dropString_app p r : dropString (String.length p) (p +:+ r) = r.
Proof. induction p as [|a p IH]; [by destruct r|exact IH]. Qed.

(** X11 (tabled namespaces).  In both browsers an IRI that starts with
    a namespace of the prefix table is shown as the short prefix
    followed by the rest of the IRI, whatever its length. *)
Theorem shortenUri_known_prefix full short rest limit table :
  (full, short) ∈ table →
  (table = prefixMap ∨ table = SpecializedView.prefixMap) →
  shortenUriWith table limit (full +:+ rest) = short +:+ rest.
Proof.
  intros Hin Ht. unfold shortenUriWith.
  assert (applyPrefix table (full +:+ rest) = Some (short +:+ rest)) as ->; [|done].
  destruct Ht as [-> | ->]; vm_compute in Hin; set_unfold in Hin;
    destruct_or!; simplify_eq; cbn [applyPrefix SpecializedView.prefixMap prefixMap app];
    repeat match goal with
    | |- context [String.prefix ?f (?f +:+ ?r)] =>
        rewrite (String_prefix_app f r), dropString_app
    | |- context [String.prefix ?f ?u] => change (String.prefix f u) with false
    end; done.
Qed.

(** A FOAF property. *)
Lemma shortenUri_known_prefix_witness :
  GraphBrowserView.shortenUri ("http://xmlns.com/foaf/0.1/" +:+ "name")
  = "foaf:" +:+ "name".
Proof.
  apply (shortenUri_known_prefix "http://xmlns.com/foaf/0.1/" "foaf:" "name"
           60 prefixMap).
  - unfold prefixMap. repeat constructor.
  - by left.
Defined.












Lemma string_app_assoc (a b c : string) : (a +:+ b) +:+ c = a +:+ b +:+ c.
Proof.
  induction a as [|x a IH]; [done|].
  change (String x ((a +:+ b) +:+ c) = String x (a +:+ b +:+ c)). by f_equal.
Qed.




End DisplayFacts.

(** ** The tree of the general browser *)

Section TreeViewFacts.
Import Stdlib.Strings.Ascii.
Import GraphBrowser.
Import Samples.
Import Display.
Import TreeView.

Lemma collectItems_weaken (build build' : string → option (option TreeItem))
    ids items :
  (∀ id r, id ∈ ids → build id = Some r → build' id = Some r) →
  collectItems build ids = Some items → collectItems build' ids = Some items.
Proof.
  revert items. induction ids as [|id ids IH]; intros items Hb H; [done|].
  cbn [collectItems] in *.
  destruct (build id) as [r|] eqn:Hr; [|done].
  rewrite (Hb id r (list_elem_of_here _ _) Hr).
  destruct (collectItems build ids) as [its|] eqn:Hits; [|done].
  rewrite (IH its); [done| |done].
  intros id' r' Hin. apply Hb. by apply list_elem_of_further.
Qed.

Lemma collectItems_is_Some (build : string → option (option TreeItem)) ids :
  (∀ id, id ∈ ids → is_Some (build id)) → is_Some (collectItems build ids).
Proof.
  induction ids as [|id ids IH]; intros Hb; [by eexists|].
  cbn [collectItems].
  destruct (Hb id (list_elem_of_here _ _)) as [r ->].
  destruct IH as [its ->]; [|by eexists].
  intros id' Hin. apply Hb. by apply list_elem_of_further.
Qed.


Lemma collectItems_fmap (build : string → option (option TreeItem))
    (f : string → TreeItem) ids :
  (∀ id, id ∈ ids → build id = Some (Some (f id))) →
  collectItems build ids = Some (f <$> ids).
Proof.
  induction ids as [|id ids IH]; intros Hb; [done|].
  cbn [collectItems]. rewrite (Hb id (list_elem_of_here _ _)).
  rewrite IH; [done|]. intros id' Hin. apply Hb. by apply list_elem_of_further.
Qed.

Lemma collectItems_None (build : string → option (option TreeItem)) ids id :
  id ∈ ids → build id = None → collectItems build ids = None.
Proof.
  intros Hin Hb. induction ids as [|x ids IH]; [by apply elem_of_nil in Hin|].
  cbn [collectItems]. apply elem_of_cons in Hin as [<-|Hin].
  - by rewrite Hb.
  - rewrite (IH Hin). by destruct (build x).
Qed.

Import GraphBrowserView.
Lemma buildItem_weaken (build build' : NodeId → option (option TreeItem))
    loading (nodes : gmap NodeId NodeData) nodeId r :
  (∀ id r, build id = Some r → build' id = Some r) →
  buildItem build loading nodes nodeId = Some r →
  buildItem build' loading nodes nodeId = Some r.
Proof.
  intros Hb. unfold buildItem.
  destruct (nodes !! nodeId) as [node|]; [|done].
  destruct (expandable node); [|done].
  destruct (children node) as [[|c ch]|]; [done| |done].
  destruct (collectItems build (c :: ch)) as [its|] eqn:Hits; [|done].
  by rewrite (collectItems_weaken _ build' _ its (λ id r' _, Hb id r') Hits).
Qed.

Lemma buildTreeItem_S fuel loading (nodes : gmap NodeId NodeData) nodeId r :
  buildTreeItem fuel loading nodes nodeId = Some r →
  buildTreeItem (S fuel) loading nodes nodeId = Some r.
Proof.
  revert nodeId r. induction fuel as [|fuel IH]; intros nodeId r H; [done|].
  change (buildItem (buildTreeItem (S fuel) loading nodes) loading nodes nodeId
          = Some r).
  change (buildItem (buildTreeItem fuel loading nodes) loading nodes nodeId
          = Some r) in H.
  by apply (buildItem_weaken _ _ _ _ _ _ IH).
Qed.

Lemma buildTreeItem_mono fuel fuel' loading (nodes : gmap NodeId NodeData)
    nodeId r :
  fuel ≤ fuel' →
  buildTreeItem fuel loading nodes nodeId = Some r →
  buildTreeItem fuel' loading nodes nodeId = Some r.
Proof.
  induction 1 as [|fuel' _ IH]; [done|]. intros H. by apply buildTreeItem_S, IH.
Qed.

Lemma keys_bounded {A} (m : gmap string A) :
  ∃ L, ∀ k, is_Some (m !! k) → String.length k ≤ L.
Proof.
  induction m as [|i x m _ [L IH]] using map_ind.
  - exists 0. intros k [? H]. by rewrite lookup_empty in H.
  - exists (L `max` String.length i). intros k Hk.
    destruct (decide (k = i)) as [->|Hne]; [lia|].
    rewrite lookup_insert_ne in Hk by done. specialize (IH k Hk). lia.
Qed.

Lemma getNodeId_child_longer t i p (parent : NodeId) :
  String.length parent < String.length (getNodeId t i p (Some parent)).
Proof.
  assert (0 < String.length (getNodeId t i p None)) as Hlen.
  { pose proof (getNodeId_base_nonempty t i p) as Hb.
    destruct (getNodeId t i p None); [done|]. simpl. lia. }
  destruct (decide (parent = ""%string)) as [->|Hp]; [exact Hlen|].
  rewrite (getNodeId_Some_parent t i p parent Hp), !string_app_length. lia.
Qed.

Lemma buildTreeItem_returns loading (nodes : gmap NodeId NodeData) nodeId :
  childrenExtend nodes →
  ∃ fuel, is_Some (buildTreeItem fuel loading nodes nodeId).
Proof.
  intros Hext. destruct (keys_bounded nodes) as [L HL].
  assert (∀ fuel (k : NodeId), L + 1 - String.length k < fuel →
            is_Some (buildTreeItem fuel loading nodes k)) as Hall.
  { induction fuel as [|fuel IH]; intros k Hk; [lia|].
    cbn [buildTreeItem]. unfold buildItem.
    destruct (nodes !! k) as [node|] eqn:Hn; [|by eexists].
    assert (String.length k ≤ L) as Hlen by (apply HL; by eexists).
    destruct (expandable node); [|by eexists].
    destruct (children node) as [[|c ch]|] eqn:Hch.
    1, 3: by destruct (negb (loaded node) && mayHaveChildren node); eexists.
    destruct (collectItems_is_Some (buildTreeItem fuel loading nodes) (c :: ch))
      as [its ->]; [|by eexists].
    intros id Hid. apply IH.
    destruct (Hext k node (c :: ch) id Hn Hch Hid) as (t & i & p & ->).
    pose proof (getNodeId_child_longer t i p k). lia. }
  exists (S (L + 1 - String.length nodeId)). apply Hall. lia.
Qed.


Lemma string_app_empty_r (s : string) : s +:+ "" = s.
Proof.
  induction s as [|c s IH]; [done|].
  change (String c (s +:+ "") = String c s). by f_equal.
Qed.

Lemma writeBack_keeps_domain dataset (snapshot prevNodes : gmap NodeId NodeData)
    nodeId (k : NodeId) :
  is_Some (prevNodes !! k) →
  is_Some (writeBack (prepare dataset snapshot nodeId) nodeId prevNodes !! k).
Proof.
  intros Hk. unfold writeBack.
  destruct (prepare dataset snapshot nodeId) as [| | |nn ch]; try done.
  apply commit_keeps_domain. apply lookup_union_is_Some. by right.
Qed.

Lemma reachable_root_present rootIri (nodes : gmap NodeId NodeData) :
  reachable rootIri nodes →
  is_Some (nodes !! getNodeId TRoot rootIri None None).
Proof.
  induction 1 as [|dataset snapshot nodeId prev _ _ _ IHp].
  - unfold handleLoadRoot. rewrite lookup_singleton_eq. by eexists.
  - by apply writeBack_keeps_domain.
Qed.

Lemma reachable_keys_rooted rootIri (nodes : gmap NodeId NodeData) (k : NodeId) :
  reachable rootIri nodes → is_Some (nodes !! k) →
  ∃ rest, k = getNodeId TRoot rootIri None None +:+ rest.
Proof.
  intros Hr. revert k.
  induction Hr as [|dataset snapshot nodeId prev _ IHs _ IHp]; intros k [r Hk].
  - unfold handleLoadRoot in Hk. apply lookup_singleton_Some in Hk as [<- _].
    exists ""%string. by rewrite string_app_empty_r.
  - unfold writeBack in Hk.
    destruct (prepare dataset snapshot nodeId) as [| | |nn ch] eqn:Hprep;
      try (apply IHp; by eexists).
    destruct (prepare_ready_entries _ _ _ _ _ Hprep) as (node & Hn & _ & Hnn & _).
    assert (∃ r', (nn ∪ prev) !! k = Some r') as [r' Hu].
    { apply commit_lookup in Hk as [(-> & u & Hu & _)|Hu]; eauto. }
    apply lookup_union_Some_raw in Hu as [Hin|[_ Hp]]; [|apply IHp; by eexists].
    destruct (IHs nodeId) as [rest Hrest]; [by eexists|].
    destruct (Hnn _ _ Hin) as [[-> _]|(Hc & _)]; [by exists rest|].
    assert (nodeId ≠ ""%string) as Hne.
    { intros Heq. rewrite Heq in Hrest. apply (f_equal String.length) in Hrest.
      rewrite string_app_length in Hrest. simpl in Hrest.
      pose proof (getNodeId_base_nonempty TRoot rootIri None) as Hb.
      destruct (getNodeId TRoot rootIri None None); [done|]. simpl in Hrest. lia. }
    rewrite (getNodeId_Some_parent _ _ _ _ Hne) in Hc.
    exists (rest +:+ "->" +:+
            getNodeId (type r') (iri r') (predicate r') None).
    by rewrite Hc, Hrest at 1; rewrite string_app_assoc.
Qed.

(** X14 (the tree build returns).  In every state a session can reach
    the recursion of [buildTreeItem] ends for every id: from some
    number of nested calls on the result is the same, and it is an
    item exactly when the id has a record.  The root id always has
    one. *)
Theorem tree_projection_returns rootIri (nodes : gmap NodeId NodeData)
    loading (nodeId : NodeId) :
  reachable rootIri nodes →
  (∃ fuel r,
     (∀ fuel', fuel ≤ fuel' →
        buildTreeItem fuel' loading nodes nodeId = Some r) ∧
     (is_Some r ↔ is_Some (nodes !! nodeId))) ∧
  is_Some (nodes !! getNodeId TRoot rootIri None None).
Proof.
  intros Hr. split; [|by apply reachable_root_present].
  destruct (reachable_invariant _ _ Hr) as (_ & _ & Hext & _).
  destruct (buildTreeItem_returns loading nodes nodeId Hext) as (fuel & r & Hb).
  exists fuel, r. split.
  - intros fuel' Hle. by apply (buildTreeItem_mono fuel).
  - destruct fuel as [|fuel]; [done|].
    change (buildItem (buildTreeItem fuel loading nodes) loading nodes nodeId
            = Some r) in Hb.
    unfold buildItem in Hb. destruct (nodes !! nodeId) as [node|].
    + destruct (if expandable node then _ else _) as [its|]; [|done].
      injection Hb as <-. split; by eexists.
    + injection Hb as <-. split; by intros [? ?].
Qed.

(** The session on [ex:a] with the group of [ex:knows] expanded. *)
Lemma tree_projection_returns_witness :
  is_Some (groupExpanded (Rdf.ofQuads knows) "ex:knows" !! rootId).
Proof.
  apply (tree_projection_returns "ex:a"
           (groupExpanded (Rdf.ofQuads knows) "ex:knows") false rootId).
  unfold groupExpanded, outGroupExpanded.
  do 3 apply loadNodeChildren_reachable. apply reach_root.
Defined.

(** X15 (pending and collapsed nodes in the tree).  In every state a
    session can reach, an unloaded record is rendered with the single
    placeholder child [<id>:placeholder] (labelled by the loading
    flag), which makes it expandable, unless it is a literal Value
    node, which is rendered without children; and a predicate group
    with a collapsed value is rendered as a leaf labelled
    [<predicate>: <value>] whose item id carries the [literal:]
    prefix. *)
Theorem pending_and_terminal_items rootIri (nodes : gmap NodeId NodeData)
    loading (k : NodeId) n fuel :
  reachable rootIri nodes → nodes !! k = Some n →
  (loaded n = false →
     buildTreeItem (S fuel) loading nodes k
     = Some (Some (TreeNode
                     (if snd (labelOf n) then "literal:" +:+ k else k)
                     (fst (labelOf n))
                     (if isLiteralObject n then None
                      else Some [TreeNode (k +:+ ":placeholder")
                                   (if loading then "Loading..." else "...")
                                   None None])
                     (if bool_decide (type n = TPredicate)
                      then Some (mkPredicateData (predicate n) (iri n)
                                   (parentType n))
                      else None)))) ∧
  (∀ v, singleLiteralValue n = Some v →
     buildTreeItem (S fuel) loading nodes k
     = Some (Some (TreeNode ("literal:" +:+ k)
                     (shortenUri (default ""%string
                                    (if truthy (predicate n) then predicate n
                                     else None)) +:+ ": " +:+ v)
                     None
                     (Some (mkPredicateData (predicate n) (iri n)
                              (parentType n)))))).
Proof.
  intros Hr Hn. destruct (reachable_invariant _ _ Hr) as (_ & _ & _ & Hb & Hc).
  split.
  - intros Hl. destruct (Hb k n Hn Hl) as [Hch Hs].
    cbn [buildTreeItem]. unfold buildItem. rewrite Hn, Hch, Hl.
    unfold expandable, isSingleLiteralPredicate. rewrite Hs.
    rewrite (bool_decide_eq_false_2 (is_Some None)) by (by intros [? ?]).
    rewrite andb_false_r. cbn [negb andb].
    destruct (isLiteralObject n) eqn:Hlit; cbn [negb]; [done|].
    assert (mayHaveChildren n = true) as ->; [|done].
    unfold mayHaveChildren. unfold isLiteralObject in Hlit.
    destruct (type n); try done.
    rewrite bool_decide_eq_true_2 in Hlit by done. simpl in Hlit.
    by rewrite Hlit.
  - intros v Hv. destruct (Hc k n v Hn Hv) as (Ht & Hl & Hch).
    cbn [buildTreeItem]. unfold buildItem. rewrite Hn.
    unfold expandable, isSingleLiteralPredicate. rewrite Ht, Hv.
    rewrite !bool_decide_eq_true_2 by (done || by eexists).
    cbn [negb andb]. unfold labelOf. rewrite Ht, Hv. done.
Qed.

(** The unloaded out-group of the root. *)
Lemma pending_and_terminal_items_witness :
  buildTreeItem 1 false
    (loadNodeChildren None (handleLoadRoot "ex:a") rootId) outId
  = Some (Some (TreeNode outId "→ Out"
                  (Some [TreeNode (outId +:+ ":placeholder") "..." None None])
                  None)).
Proof.
  apply (pending_and_terminal_items "ex:a"
           (loadNodeChildren None (handleLoadRoot "ex:a") rootId) false outId
           (groupNode TOut "ex:a" rootId) 0).
  - apply loadNodeChildren_reachable, reach_root.
  - vm_compute. reflexivity.
  - reflexivity.
Defined.

Lemma includes_prefix sub s :
  String.prefix sub s = true → includes sub s = true.
Proof. intros H. destruct s; cbn [includes]; by rewrite H. Qed.

Lemma includes_iff sub s :
  includes sub s = true ↔ ∃ a b, s = a +:+ sub +:+ b.
Proof.
  split.
  - induction s as [|c s IH].
    + cbn [includes]. rewrite orb_false_r. intros [r Hr]%String_prefix_iff.
      by exists ""%string, r.
    + cbn [includes]. intros [[r Hr]%String_prefix_iff|H]%orb_true_iff.
      * by exists ""%string, r.
      * destruct (IH H) as (a & b & ->). by exists (String c a), b.
  - intros (a & b & ->). induction a as [|c a IH].
    + change (includes sub (sub +:+ b) = true).
      apply includes_prefix, String_prefix_app.
    + change (includes sub (String c (a +:+ sub +:+ b)) = true).
      cbn [includes]. by rewrite IH, orb_true_r.
Qed.

Lemma rooted_head rootIri rest :
  ∃ tl, getNodeId TRoot rootIri None None +:+ rest = String "r"%char tl.
Proof. by eexists. Qed.

(** X16 (from item ids back to node ids).  In every state a session
    can reach, stripping the [literal:] prefix from the item id of a
    recorded node gives back the node's id, whether the item carries
    the prefix or not.  A newly expanded item whose id does not contain
    [:placeholder] requests the load of exactly that node; an item that
    was expanded before requests nothing. *)
Theorem expansion_addresses_node rootIri (nodes : gmap NodeId NodeData)
    (k : NodeId) expandedItems :
  reachable rootIri nodes → is_Some (nodes !! k) →
  actualNodeId k = k ∧ actualNodeId ("literal:" +:+ k) = k ∧
  (includes ":placeholder" k = false →
     (k ∉ expandedItems → handleExpandedItemsChange expandedItems [k] = [k]) ∧
     ("literal:" +:+ k ∉ expandedItems →
        handleExpandedItemsChange expandedItems ["literal:" +:+ k] = [k])) ∧
  (k ∈ expandedItems → handleExpandedItemsChange expandedItems [k] = []).
Proof.
  intros Hr Hk. destruct (reachable_keys_rooted _ _ _ Hr Hk) as [rest ->].
  destruct (rooted_head rootIri rest) as [tl ->].
  assert (actualNodeId (String "r"%char tl) = String "r"%char tl) as H1 by done.
  assert (actualNodeId ("literal:" +:+ String "r"%char tl) = String "r"%char tl) as H2
    by done.
  split_and!; [done|done| |].
  - intros Hinc. split; intros Hnot; unfold handleExpandedItemsChange.
    + rewrite filter_cons, decide_True by done. by rewrite filter_nil.
    + rewrite filter_cons, decide_True; [by rewrite filter_nil|].
      split; [done|]. cbn. cbn in Hinc. exact Hinc.
  - intros Hin. unfold handleExpandedItemsChange.
    rewrite filter_cons, decide_False by (by intros [? _]). done.
Qed.

(** The out-group of the root. *)
Lemma expansion_addresses_node_witness :
  actualNodeId ("literal:" +:+ outId) = outId.
Proof.
  apply (expansion_addresses_node "ex:a"
           (loadNodeChildren None (handleLoadRoot "ex:a") rootId) outId []).
  - apply loadNodeChildren_reachable, reach_root.
  - vm_compute. by eexists.
Defined.

(** X17 (the placeholder marker).  Expanding a placeholder item never
    requests a load.  The test is a substring test on the item id, and
    every id of a session extends the root's id: when the root IRI
    contains [:placeholder], no item of the tree requests a load when
    it is expanded. *)
Theorem placeholder_marker_blocks_expansion rootIri
    (nodes : gmap NodeId NodeData) (k : NodeId) expandedItems :
  reachable rootIri nodes → is_Some (nodes !! k) →
  handleExpandedItemsChange expandedItems [k +:+ ":placeholder"] = [] ∧
  (includes ":placeholder" rootIri = true →
     handleExpandedItemsChange expandedItems [k; "literal:" +:+ k] = []).
Proof.
  intros Hr Hk. split.
  - unfold handleExpandedItemsChange. rewrite filter_cons, decide_False; [done|].
    intros [_ H]. rewrite (proj2 (includes_iff _ _)) in H; [done|].
    exists k, ""%string. done.
  - intros (a & b & Hroot)%includes_iff.
    destruct (reachable_keys_rooted _ _ _ Hr Hk) as [rest ->].
    assert (∀ pre, includes ":placeholder"
                     (pre +:+ getNodeId TRoot rootIri None None +:+ rest) = true)
      as Hinc.
    { intros pre. apply includes_iff.
      exists (pre +:+ "root:" +:+ a), (b +:+ rest). rewrite Hroot.
      unfold getNodeId. cbn [typeName]. by rewrite !string_app_assoc. }
    unfold handleExpandedItemsChange.
    rewrite filter_cons, decide_False.
    2:{ intros [_ H]. pose proof (Hinc ""%string) as Hi.
        change (includes ":placeholder"
                  (getNodeId TRoot rootIri None None +:+ rest) = true) in Hi.
        congruence. }
    rewrite filter_cons, decide_False; [done|].
    intros [_ H]. pose proof (Hinc "literal:"%string) as Hi. congruence.
Qed.

(** A session on the IRI [urn:placeholder]. *)
Lemma placeholder_marker_blocks_expansion_witness :
  handleExpandedItemsChange []
    [getNodeId TIn "urn:placeholder" None
       (Some (getNodeId TRoot "urn:placeholder" None None));
     "literal:" +:+
     getNodeId TIn "urn:placeholder" None
       (Some (getNodeId TRoot "urn:placeholder" None None))]
  = [].
Proof.
  apply (placeholder_marker_blocks_expansion "urn:placeholder"
           (loadNodeChildren None (handleLoadRoot "urn:placeholder")
              (getNodeId TRoot "urn:placeholder" None None))
           (getNodeId TIn "urn:placeholder" None
              (Some (getNodeId TRoot "urn:placeholder" None None))) []).
  - apply loadNodeChildren_reachable, reach_root.
  - vm_compute. by eexists.
  - vm_compute. reflexivity.
Defined.

End TreeViewFacts.

(** ** The single-predicate traversal: one load *)

Section TraversalFacts.
Import SpecializedGraphBrowser.

Lemma loadLabels_zip dataset related labels c l :
  loadLabels dataset related = Ok labels →
  (c, l) ∈ zip related labels → loadLabel dataset c = Ok l.
Proof.
  revert labels. induction related as [|r related IH]; intros labels H Hin.
  - simpl in Hin. by apply elem_of_nil in Hin.
  - simpl in H. destruct (loadLabel dataset r) as [lr|] eqn:Hr; [|done].
    simpl in H. destruct (loadLabels dataset related) as [ls|] eqn:Hls; [|done].
    simpl in H. injection H as <-. simpl in Hin.
    apply elem_of_cons in Hin as [[= -> ->]|Hin]; [done|]. by eapply IH.
Qed.

Lemma loadLabels_length dataset related labels :
  loadLabels dataset related = Ok labels → length labels = length related.
Proof.
  revert labels. induction related as [|r related IH]; intros labels H.
  - by injection H as <-.
  - simpl in H. destruct (loadLabel dataset r) as [lr|]; [|done].
    simpl in H. destruct (loadLabels dataset related) as [ls|]; [|done].
    simpl in H. injection H as <-. simpl. f_equal. by apply IH.
Qed.

Lemma loadNode_success ds direction predicateIri
    (nodes : gmap string SpecializedNode) i lbl related labels :
  loadLabel (Some ds) i = Ok lbl →
  relatedQuery (Some ds) direction predicateIri i = Ok related →
  loadLabels (Some ds) related = Ok labels →
  writes i nodes = true →
  loadNode (Some ds) direction predicateIri nodes i
  = mergeLabels related labels
      (<[i := mkSpecializedNode i lbl true (Some related)]> nodes).
Proof.
  intros Hl Hr Hls Hw. unfold loadNode. unfold relatedQuery in Hr.
  rewrite Hl, Hr, Hw.
  assert (writeBack i lbl related nodes
          = <[i := mkSpecializedNode i lbl true (Some related)]> nodes) as ->.
  { unfold writes in Hw. unfold writeBack.
    destruct (nodes !! i) as [e|]; [|done]. by destruct (loaded e). }
  simpl. rewrite Hls. case_bool_decide as Hlen; [done|].
  destruct related; [|simpl in Hlen; lia]. by injection Hls as <-.
Qed.

(** X18 (one level per load).  A [loadNode] of a node without a
    loaded record, all of whose queries answer, records the node as
    loaded with its label and the related IRIs in query order.  Each
    related IRI other than the node keeps the record it had with its
    label replaced, or gets a fresh unloaded record; every other
    record is unchanged.  No other node becomes loaded or changes its
    children: related nodes are not expanded. *)
Theorem loadNode_expands_one_level ds direction predicateIri
    (nodes : gmap string SpecializedNode) i lbl related labels :
  loadLabel (Some ds) i = Ok lbl →
  relatedQuery (Some ds) direction predicateIri i = Ok related →
  loadLabels (Some ds) related = Ok labels →
  writes i nodes = true →
  let nodes' := loadNode (Some ds) direction predicateIri nodes i in
  nodes' !! i = Some (mkSpecializedNode i lbl true (Some related)) ∧
  (∀ c, c ∈ related → c ≠ i →
     ∃ l, loadLabel (Some ds) c = Ok l ∧
          nodes' !! c = Some (relabel c l (nodes !! c))) ∧
  (∀ k, k ≠ i → k ∉ related → nodes' !! k = nodes !! k) ∧
  (∀ k n', k ≠ i → nodes' !! k = Some n' → loaded n' = true →
     ∃ n, nodes !! k = Some n ∧ loaded n = true ∧ children n = children n').
Proof.
  intros Hl Hr Hls Hw nodes'.
  pose proof (loadNode_success _ _ _ _ _ _ _ _ Hl Hr Hls Hw) as Heq.
  pose proof (loadLabels_length _ _ _ Hls) as Hlen.
  set (written := <[i := mkSpecializedNode i lbl true (Some related)]> nodes)
    in *.
  assert (∀ c, c ∈ related →
            ∃ l, loadLabel (Some ds) c = Ok l ∧
                 nodes' !! c = Some (relabel c l (written !! c))) as Hin.
  { intros c Hc. unfold nodes'. rewrite Heq. unfold mergeLabels.
    destruct (foldl_mergeLabel_in (zip related labels) written c)
      as (l & Hz & Hlook); [by rewrite fst_zip by lia|].
    exists l. split; [by eapply loadLabels_zip|done]. }
  assert (∀ k, k ∉ related → nodes' !! k = written !! k) as Hout.
  { intros k Hk. unfold nodes'. rewrite Heq. unfold mergeLabels.
    apply foldl_mergeLabel_notin. by rewrite fst_zip by lia. }
  split_and!.
  - destruct (decide (i ∈ related)) as [Hi|Hi].
    + destruct (Hin i Hi) as (l & Hl' & ->). unfold written.
      rewrite lookup_insert_eq. simpl. congruence.
    + rewrite Hout by done. apply lookup_insert_eq.
  - intros c Hc Hne. destruct (Hin c Hc) as (l & Hl' & ->).
    exists l. split; [done|]. unfold written. by rewrite lookup_insert_ne.
  - intros k Hk Hnot. rewrite Hout by done. unfold written.
    by rewrite lookup_insert_ne.
  - intros k n' Hk Hn' Hloaded.
    assert (written !! k = nodes !! k) as Hw'
      by (unfold written; by rewrite lookup_insert_ne).
    destruct (decide (k ∈ related)) as [Hc|Hc].
    + destruct (Hin k Hc) as (l & _ & Hlook). rewrite Hw', Hn' in Hlook.
      injection Hlook as ->.
      destruct (nodes !! k) as [n|]; [|done]. exists n. done.
    + rewrite Hout, Hw' in Hn' by done. eauto.
Qed.

(** The traversal of [ex:knows] from [ex:a]. *)
Lemma loadNode_expands_one_level_witness :
  loadNode (Some (Rdf.ofQuads Samples.knows)) DirOut "ex:knows"
    (initialNodes "ex:a") "ex:a" !! "ex:a"
  = Some (mkSpecializedNode "ex:a" None true (Some ["ex:b"%string])).
Proof.
  destruct (loadNode_expands_one_level (Rdf.ofQuads Samples.knows) DirOut
              "ex:knows" (initialNodes "ex:a") "ex:a" None ["ex:b"%string]
              [None])
    as [H _]; [vm_compute; reflexivity..|].
  exact H.
Defined.

(** X19 (failing queries).  When the label query or the relation
    query of the node throws, [loadNode] leaves the map unchanged.
    When only a label lookup of a related node throws, the node is
    still recorded as loaded with its children, and no related node
    is recorded or relabelled. *)
Theorem loadNode_failures ds direction predicateIri
    (nodes : gmap string SpecializedNode) i :
  (loadLabel (Some ds) i = Threw
   ∨ relatedQuery (Some ds) direction predicateIri i = Threw →
   loadNode (Some ds) direction predicateIri nodes i = nodes) ∧
  (∀ lbl related,
     loadLabel (Some ds) i = Ok lbl →
     relatedQuery (Some ds) direction predicateIri i = Ok related →
     loadLabels (Some ds) related = Threw →
     writes i nodes = true →
     loadNode (Some ds) direction predicateIri nodes i
     = <[i := mkSpecializedNode i lbl true (Some related)]> nodes).
Proof.
  split.
  - intros H. unfold loadNode. unfold relatedQuery in H.
    destruct (loadLabel (Some ds) i) as [lbl|]; [|done].
    destruct H as [H|H]; [done|]. by rewrite H.
  - intros lbl related Hl Hr Hls Hw. unfold loadNode.
    unfold relatedQuery in Hr. rewrite Hl, Hr, Hw.
    assert (writeBack i lbl related nodes
            = <[i := mkSpecializedNode i lbl true (Some related)]> nodes) as ->.
    { unfold writes in Hw. unfold writeBack.
      destruct (nodes !! i) as [e|]; [|done]. by destruct (loaded e). }
    simpl. rewrite Hls. by case_bool_decide.
Qed.

(** X20 (what an expansion loads).  Every [loadNode] call issued by
    [handleExpandedItemsChange] is for a node that has no loaded
    record, and the node is either a newly expanded item or a listed
    child of a newly expanded item that is loaded. *)
Theorem expansion_requests_only_unloaded expandedItems
    (nodes : gmap string SpecializedNode) itemIds i :
  i ∈ handleExpandedItemsChange expandedItems nodes itemIds →
  writes i nodes = true ∧
  ∃ itemId, itemId ∈ itemIds ∧ (itemId ∉ expandedItems) ∧
    (i = itemId
     ∨ ∃ node ch, nodes !! itemId = Some node ∧ loaded node = true ∧
                  children node = Some ch ∧ i ∈ ch).
Proof.
  unfold handleExpandedItemsChange.
  intros (itemId & Hi & Hitem)%list_elem_of_bind.
  unfold loadsForItem in Hi. case_bool_decide as Hexp.
  { by apply elem_of_nil in Hi. }
  destruct (nodes !! itemId) as [node|] eqn:Hn; [|by apply elem_of_nil in Hi].
  destruct (loaded node) eqn:Hl; simpl in Hi.
  - destruct (children node) as [ch|] eqn:Hch; [|by apply elem_of_nil in Hi].
    apply list_elem_of_In, filter_In in Hi as [Hin Hc].
    apply list_elem_of_In in Hin. split.
    + unfold writes. by destruct (nodes !! i).
    + exists itemId. split_and!; [done..|]. right. eauto 10.
  - apply list_elem_of_singleton in Hi as ->. split.
    + unfold writes. by rewrite Hn, Hl.
    + exists itemId. split_and!; [done..|]. by left.
Qed.

(** Expanding the start node before it is loaded. *)
Lemma expansion_requests_only_unloaded_witness :
  writes "ex:a" (initialNodes "ex:a") = true.
Proof.
  apply (expansion_requests_only_unloaded [] (initialNodes "ex:a")
           ["ex:a"%string] "ex:a").
  vm_compute. apply list_elem_of_here.
Defined.

End TraversalFacts.

(** ** The tree of the single-predicate traversal *)

Section TraversalViewFacts.
Import SpecializedGraphBrowser.
Import TreeView.
Import SpecializedView.


Lemma buildTreeItem_cycle (nodes : gmap string SpecializedNode)
    (cyclic : string → Prop) :
  (∀ i, cyclic i →
     ∃ node ch c, nodes !! i = Some node ∧ children node = Some ch ∧
                  c ∈ ch ∧ cyclic c) →
  ∀ fuel i, cyclic i → buildTreeItem fuel nodes i = None.
Proof.
  intros Hcyc. induction fuel as [|fuel IH]; intros i Hi; [done|].
  cbn [buildTreeItem]. unfold buildItem.
  destruct (Hcyc i Hi) as (node & ch & c & -> & -> & Hc & Hcc).
  destruct ch as [|x ch]; [by apply elem_of_nil in Hc|].
  by rewrite (collectItems_None _ _ c Hc (IH c Hcc)).
Qed.

(** X21 (cycles).  [buildTreeItem] of the specialized view follows the
    children lists with no test for revisits: if the start node lies in
    a set of recorded nodes each of which lists a child in the set (a
    cycle of the relation, or a node related to itself), the build of
    the tree items does not return, whatever the number of nested
    calls. *)
Theorem cyclic_children_never_render (nodes : gmap string SpecializedNode)
    (cyclic : string → Prop) startNodeIri fuel :
  (∀ i, cyclic i →
     ∃ node ch c, nodes !! i = Some node ∧ children node = Some ch ∧
                  c ∈ ch ∧ cyclic c) →
  cyclic startNodeIri →
  treeItems fuel nodes startNodeIri = None.
Proof.
  intros Hcyc Hs. unfold treeItems.
  destruct (Hcyc _ Hs) as (node & _ & _ & -> & _).
  by rewrite (buildTreeItem_cycle nodes cyclic Hcyc fuel _ Hs).
Qed.

(** The state after loading [ex:a], which knows itself. *)
Lemma cyclic_children_never_render_witness :
  treeItems 5
    (loadNode (Some (Rdf.ofQuads Samples.selfLoop)) DirOut "ex:knows"
       (initialNodes "ex:a") "ex:a") "ex:a"
  = None.
Proof.
  apply (cyclic_children_never_render _ (λ k, k = "ex:a"%string)).
  - intros i ->. eexists _, _, "ex:a"%string.
    split_and!; [vm_compute; reflexivity | reflexivity
                | apply list_elem_of_here | reflexivity].
  - reflexivity.
Defined.

Lemma loadNode_initial_record ds direction predicateIri i lbl related :
  loadLabel (Some ds) i = Ok lbl →
  relatedQuery (Some ds) direction predicateIri i = Ok related →
  ∃ lbl',
    loadNode (Some ds) direction predicateIri (initialNodes i) i !! i
    = Some (mkSpecializedNode i lbl' true (Some related)).
Proof.
  intros Hl Hr.
  assert (writes i (initialNodes i) = true) as Hw.
  { unfold writes, initialNodes. by rewrite lookup_singleton_eq. }
  destruct (loadLabels (Some ds) related) as [labels|] eqn:Hls.
  - rewrite (loadNode_success _ _ _ _ _ _ _ _ Hl Hr Hls Hw).
    pose proof (loadLabels_length _ _ _ Hls) as Hlen.
    unfold mergeLabels.
    destruct (decide (i ∈ related)) as [Hi|Hi].
    + destruct (foldl_mergeLabel_in (zip related labels)
                  (<[i := mkSpecializedNode i lbl true (Some related)]>
                     (initialNodes i)) i)
        as (l & _ & ->); [by rewrite fst_zip by lia|].
      rewrite lookup_insert_eq. by exists l.
    + rewrite foldl_mergeLabel_notin by (by rewrite fst_zip by lia).
      rewrite lookup_insert_eq. by exists lbl.
  - exists lbl. unfold loadNode. unfold relatedQuery in Hr. rewrite Hl, Hr, Hw.
    assert (writeBack i lbl related (initialNodes i)
            = <[i := mkSpecializedNode i lbl true (Some related)]>
                (initialNodes i)) as ->.
    { unfold writeBack, initialNodes. by rewrite lookup_singleton_eq. }
    simpl. rewrite Hls.
    case_bool_decide; by rewrite lookup_insert_eq.
Qed.

(** X22 (a start node related to itself).  When the relation query of
    the start node returns the start node itself, the state that
    [loadNode] leaves is one on which the build of the tree items does
    not return. *)
Theorem self_related_start_never_renders ds direction predicateIri i lbl
    related fuel :
  loadLabel (Some ds) i = Ok lbl →
  relatedQuery (Some ds) direction predicateIri i = Ok related →
  i ∈ related →
  treeItems fuel (loadNode (Some ds) direction predicateIri (initialNodes i) i) i
  = None.
Proof.
  intros Hl Hr Hi.
  destruct (loadNode_initial_record _ _ _ _ _ _ Hl Hr) as [lbl' Hrec].
  unfold treeItems. rewrite Hrec.
  rewrite (buildTreeItem_cycle _ (λ k, k = i)); [done| |done].
  intros k ->. eauto 10.
Qed.

(** [ex:a] knows itself. *)
Lemma self_related_start_never_renders_witness :
  treeItems 5
    (loadNode (Some (Rdf.ofQuads Samples.selfLoop)) DirOut "ex:knows"
       (initialNodes "ex:a") "ex:a") "ex:a"
  = None.
Proof.
  apply (self_related_start_never_renders (Rdf.ofQuads Samples.selfLoop)
           DirOut "ex:knows" "ex:a" None ["ex:a"%string] 5);
    [vm_compute; reflexivity | vm_compute; reflexivity
    | apply list_elem_of_here].
Defined.

(** X23 (the first level).  After the [loadNode] of a start node that
    is not related to itself, with all queries answering, the tree is
    the start node's item with one child item per related IRI in query
    order; each child is labelled with its own label and holds the
    placeholder [<iri>:placeholder], so it can be expanded. *)
Theorem first_level_renders_with_placeholders ds direction predicateIri i lbl
    related labels fuel :
  loadLabel (Some ds) i = Ok lbl →
  relatedQuery (Some ds) direction predicateIri i = Ok related →
  loadLabels (Some ds) related = Ok labels →
  i ∉ related →
  let nodes := loadNode (Some ds) direction predicateIri (initialNodes i) i in
  ∃ childLabel : string → option string,
    (∀ c, c ∈ related → loadLabel (Some ds) c = Ok (childLabel c)) ∧
    treeItems (S (S fuel)) nodes i
    = Some [TreeNode i
              (formattedLabel i (mkSpecializedNode i lbl true (Some related)))
              (nonEmpty
                 ((λ c, TreeNode c
                          (formattedLabel c
                             (mkSpecializedNode c (childLabel c) false None))
                          (Some [TreeNode (c +:+ ":placeholder") "..." None None])
                          None) <$> related))
              None].
Proof.
  intros Hl Hr Hls Hi nodes.
  assert (writes i (initialNodes i) = true) as Hw.
  { unfold writes, initialNodes. by rewrite lookup_singleton_eq. }
  destruct (loadNode_expands_one_level _ _ _ _ _ _ _ _ Hl Hr Hls Hw)
    as (Hself & Hchild & _).
  fold nodes in Hself, Hchild.
  set (childLabel := λ c, match loadLabel (Some ds) c with
                          | Ok l => l
                          | Threw => None
                          end).
  exists childLabel. split.
  { intros c Hc. unfold childLabel.
    destruct (Hchild c Hc) as (l & -> & _); [by intros ->|done]. }
  unfold treeItems. rewrite Hself. cbn [buildTreeItem]. unfold buildItem at 1.
  rewrite Hself. cbn [children loaded].
  destruct related as [|r related]; [done|].
  rewrite (collectItems_fmap _
             (λ c, TreeNode c
                     (formattedLabel c
                        (mkSpecializedNode c (childLabel c) false None))
                     (Some [TreeNode (c +:+ ":placeholder") "..." None None])
                     None)); [done|].
  intros c Hc. destruct (Hchild c Hc) as (l & Hlc & Hrec); [by intros ->|].
  unfold buildItem. rewrite Hrec.
  assert (initialNodes i !! c = None) as ->.
  { unfold initialNodes. apply lookup_singleton_ne. by intros ->. }
  unfold childLabel. rewrite Hlc. done.
Qed.

(** [ex:a] knows [ex:b]. *)
Lemma first_level_renders_with_placeholders_witness :
  is_Some
    (treeItems 2
       (loadNode (Some (Rdf.ofQuads Samples.knows)) DirOut "ex:knows"
          (initialNodes "ex:a") "ex:a") "ex:a").
Proof.
  destruct (first_level_renders_with_placeholders (Rdf.ofQuads Samples.knows)
              DirOut "ex:knows" "ex:a" None ["ex:b"%string] [None] 0)
    as (childLabel & _ & H);
    [vm_compute; reflexivity | vm_compute; reflexivity
    | vm_compute; reflexivity | |].
  - apply (bool_decide_unpack _). by vm_compute.
  - rewrite H. by eexists.
Defined.

End TraversalViewFacts.

(** ** The bookmark list *)

Section BookmarkListFacts.
Import BookmarkStore.

Lemma isBookmarked_true (bs : list Bookmark) i :
  isBookmarked bs i = true ↔ i ∈ iri <$> bs.
Proof.
  unfold isBookmarked. rewrite existsb_exists, list_elem_of_fmap.
  split.
  - intros (b & Hb & Heq). apply bool_decide_eq_true in Heq.
    exists b. split; [done|]. by apply list_elem_of_In.
  - intros (b & -> & Hb). exists b. split; [by apply list_elem_of_In|].
    by apply bool_decide_eq_true.
Qed.

Lemma isBookmarked_false (bs : list Bookmark) i :
  isBookmarked bs i = false ↔ i ∉ iri <$> bs.
Proof.
  rewrite <- isBookmarked_true. by destruct (isBookmarked bs i).
Qed.

Lemma getBookmark_None (bs : list Bookmark) i :
  getBookmark bs i = None ↔ i ∉ iri <$> bs.
Proof.
  unfold getBookmark. rewrite fmap_None, list_find_None, Forall_forall.
  rewrite list_elem_of_fmap. split.
  - intros H (b & -> & Hb). by apply (H b).
  - intros H b Hb Heq. apply H. eauto.
Qed.

Lemma getBookmark_Some_iri (bs : list Bookmark) i b :
  getBookmark bs i = Some b → iri b = i ∧ b ∈ bs.
Proof.
  unfold getBookmark. intros ([k b'] & Hf & Heq)%fmap_Some.
  simpl in Heq. subst b'.
  apply list_find_Some in Hf as (Hl & Hi & _). split; [done|].
  by eapply list_elem_of_lookup_2.
Qed.

Lemma getBookmark_cons (b : Bookmark) bs i :
  getBookmark (b :: bs) i = if decide (iri b = i) then Some b else getBookmark bs i.
Proof.
  unfold getBookmark. simpl. case_decide; [done|].
  destruct (list_find (λ b0, iri b0 = i) bs) as [[k x]|]; done.
Qed.

Lemma filter_other_delete_first (bs : list Bookmark) i k b :
  list_find (λ b, iri b = i) bs = Some (k, b) →
  filter (λ b, iri b ≠ i) (delete k bs) = filter (λ b, iri b ≠ i) bs.
Proof.
  intros (Hl & Hi & _)%list_find_Some.
  rewrite delete_take_drop. rewrite <- (take_drop_middle bs k b Hl) at 3.
  rewrite !filter_app, filter_cons_False; [done|]. by intros H.
Qed.

Lemma getBookmark_other_filter (bs : list Bookmark) i j :
  j ≠ i → getBookmark (filter (λ b, iri b ≠ i) bs) j = getBookmark bs j.
Proof.
  intros Hne. induction bs as [|b bs IH]; [done|].
  rewrite filter_cons. case_decide as Hb.
  - rewrite !getBookmark_cons. by rewrite IH.
  - rewrite getBookmark_cons. case_decide; [congruence|done].
Qed.


Lemma getBookmark_delete_other (bs : list Bookmark) i j k b :
  j ≠ i → list_find (λ b, iri b = i) bs = Some (k, b) →
  getBookmark (delete k bs) j = getBookmark bs j.
Proof.
  intros Hne Hf.
  rewrite <- (getBookmark_other_filter (delete k bs) i j Hne).
  rewrite <- (getBookmark_other_filter bs i j Hne).
  by rewrite (filter_other_delete_first bs i k b).
Qed.

Lemma removeBookmark_list i (state : State) :
  bookmarks (removeBookmark i state) = filter (λ b, iri b ≠ i) (bookmarks state).
Proof. done. Qed.

Lemma updateBookmark_iris i metadata (state : State) :
  iri <$> bookmarks (updateBookmark i metadata state) = iri <$> bookmarks state.
Proof.
  unfold updateBookmark. simpl. rewrite <- list_fmap_compose.
  apply list_fmap_ext. intros k b _. simpl. by case_decide.
Qed.



Lemma filter_other_id (bs : list Bookmark) i :
  i ∉ iri <$> bs → filter (λ b, iri b ≠ i) bs = bs.
Proof.
  intros Hn. induction bs as [|b bs IH]; [done|].
  rewrite fmap_cons in Hn. apply not_elem_of_cons in Hn as [H1 H2].
  rewrite filter_cons, decide_True by done. by rewrite IH.
Qed.

Lemma addBookmark_cons now i metadata (state : State) :
  ∃ rest,
    bookmarks (addBookmark now i metadata state)
    = mkBookmark i
        (nullish (readField mLabel metadata)
           (getBookmark (bookmarks state) i ≫= label))
        (nullish (readField mDescription metadata)
           (getBookmark (bookmarks state) i ≫= description))
        (nullish (readField mHint metadata)
           (getBookmark (bookmarks state) i ≫= hint))
        now :: rest ∧
    filter (λ b, iri b ≠ i) rest = filter (λ b, iri b ≠ i) (bookmarks state) ∧
    length rest + (if isBookmarked (bookmarks state) i then 1 else 0)
    = length (bookmarks state) ∧
    (∀ j, j ≠ i → getBookmark rest j = getBookmark (bookmarks state) j).
Proof.
  unfold addBookmark, getBookmark at 1 2 3.
  destruct (list_find (λ b, iri b = i) (bookmarks state)) as [[k e]|] eqn:Hf;
    simpl.
  - exists (delete k (bookmarks state)).
    pose proof Hf as (Hl & Hi & _)%list_find_Some.
    assert (isBookmarked (bookmarks state) i = true) as Hb.
    { apply isBookmarked_true, list_elem_of_fmap. exists e.
      split; [done|]. by eapply list_elem_of_lookup_2. }
    split_and!; [done| | |].
    + by apply (filter_other_delete_first _ _ _ e).
    + rewrite Hb, length_delete by eauto.
      apply lookup_lt_Some in Hl. lia.
    + intros j Hj. by apply (getBookmark_delete_other _ i j k e).
  - exists (bookmarks state).
    assert (isBookmarked (bookmarks state) i = false) as Hb.
    { apply isBookmarked_false, getBookmark_None. unfold getBookmark.
      by rewrite Hf. }
    assert (∀ A (x : option A), nullish x None = x) as Hn by (by intros A []).
    rewrite !Hn, Hb. split_and!; [done|done|lia|done].
Qed.

Lemma addBookmark_frame now i metadata (state : State) :
  fieldStates (addBookmark now i metadata state) = fieldStates state ∧
  lastFocusedInputId (addBookmark now i metadata state)
  = lastFocusedInputId state.
Proof.
  unfold addBookmark.
  by destruct (list_find (λ b, iri b = i) (bookmarks state)) as [[k e]|].
Qed.


Lemma addBookmark_other now i metadata (state : State) j :
  j ≠ i →
  getBookmark (bookmarks (addBookmark now i metadata state)) j
  = getBookmark (bookmarks state) j.
Proof.
  intros Hj.
  destruct (addBookmark_cons now i metadata state) as (rest & -> & _ & _ & Ho).
  rewrite getBookmark_cons. simpl. rewrite decide_False by congruence.
  by apply Ho.
Qed.

Lemma removeBookmark_not_in i (state : State) :
  i ∉ iri <$> bookmarks (removeBookmark i state).
Proof.
  rewrite removeBookmark_list.
  intros (b & Heq & Hin%list_elem_of_filter)%list_elem_of_fmap.
  by destruct Hin.
Qed.

Lemma removeBookmark_absent i (state : State) :
  isBookmarked (bookmarks state) i = false → removeBookmark i state = state.
Proof.
  intros Hb%isBookmarked_false. unfold removeBookmark.
  rewrite filter_other_id by done. by destruct state.
Qed.

Lemma removeBookmark_addBookmark now i metadata (state : State) :
  isBookmarked (bookmarks state) i = false →
  removeBookmark i (addBookmark now i metadata state) = state.
Proof.
  intros Hb%isBookmarked_false.
  destruct (addBookmark_cons now i metadata state) as (rest & Heq & Hrest & _).
  destruct (addBookmark_frame now i metadata state) as [Hf Hl].
  unfold removeBookmark. rewrite Heq, Hf, Hl.
  rewrite filter_cons_False by (simpl; by intros H).
  rewrite Hrest, filter_other_id by done. by destruct state.
Qed.

(** X24 (re-adding moves to the top).  [addBookmark] puts the bookmark
    of the IRI at the head of the list with the time of the call as its
    timestamp; each metadata key that is missing or nullish in the call
    keeps the value of the bookmark that was there before.  The list
    holds the other IRIs' bookmarks as before, in their order: it grows
    by one exactly when the IRI was not bookmarked, so re-adding never
    duplicates an entry.  The field registry is untouched. *)
Theorem addBookmark_moves_to_top now i metadata (state : State) :
  let old := getBookmark (bookmarks state) i in
  let new :=
    mkBookmark i
      (nullish (readField mLabel metadata) (old ≫= label))
      (nullish (readField mDescription metadata) (old ≫= description))
      (nullish (readField mHint metadata) (old ≫= hint)) now in
  let bookmarks' := bookmarks (addBookmark now i metadata state) in
  head bookmarks' = Some new ∧
  getBookmark bookmarks' i = Some new ∧
  filter (λ b, iri b ≠ i) bookmarks'
  = filter (λ b, iri b ≠ i) (bookmarks state) ∧
  length bookmarks'
  = length (bookmarks state)
    + (if isBookmarked (bookmarks state) i then 0 else 1) ∧
  (∀ j, j ≠ i → getBookmark bookmarks' j = getBookmark (bookmarks state) j) ∧
  fieldStates (addBookmark now i metadata state) = fieldStates state ∧
  lastFocusedInputId (addBookmark now i metadata state)
  = lastFocusedInputId state.
Proof.
  intros old new bookmarks'.
  destruct (addBookmark_cons now i metadata state)
    as (rest & Heq & Hrest & Hlen & _).
  destruct (addBookmark_frame now i metadata state) as [Hf Hl].
  unfold bookmarks'. split_and!; [| | | | |done|done].
  - by rewrite Heq.
  - rewrite Heq, getBookmark_cons. simpl. by rewrite decide_True.
  - rewrite Heq, filter_cons_False by (simpl; by intros H). done.
  - rewrite Heq. simpl.
    destruct (isBookmarked (bookmarks state) i); lia.
  - intros j Hj. by apply addBookmark_other.
Qed.



(** X26 (removal).  After [removeBookmark] the IRI is not bookmarked and
    the other IRIs' bookmarks are found as before; removing twice is
    removing once, removing an IRI that is not bookmarked changes
    nothing, and removing right after adding a new bookmark restores
    the state. *)
Theorem removeBookmark_spec now i metadata (state : State) :
  isBookmarked (bookmarks (removeBookmark i state)) i = false ∧
  getBookmark (bookmarks (removeBookmark i state)) i = None ∧
  (∀ j, j ≠ i →
     getBookmark (bookmarks (removeBookmark i state)) j
     = getBookmark (bookmarks state) j) ∧
  removeBookmark i (removeBookmark i state) = removeBookmark i state ∧
  (isBookmarked (bookmarks state) i = false →
     removeBookmark i state = state ∧
     removeBookmark i (addBookmark now i metadata state) = state).
Proof.
  pose proof (removeBookmark_not_in i state) as Hnot.
  split_and!.
  - by apply isBookmarked_false.
  - by apply getBookmark_None.
  - intros j Hj. by apply getBookmark_other_filter.
  - apply removeBookmark_absent. by apply isBookmarked_false.
  - intros Hb. split.
    + by apply removeBookmark_absent.
    + by apply removeBookmark_addBookmark.
Qed.

(** X27 (metadata update).  [updateBookmark] keeps the order, the IRIs
    and the timestamps of the list and every other IRI's bookmark; in
    the bookmark of the IRI each key that the metadata object has
    replaces the stored value, also when its value is [undefined].
    An IRI that is not bookmarked is not added: the state is
    unchanged. *)
Theorem updateBookmark_frame i metadata (state : State) :
  iri <$> bookmarks (updateBookmark i metadata state) = iri <$> bookmarks state ∧
  addedAt <$> bookmarks (updateBookmark i metadata state)
  = addedAt <$> bookmarks state ∧
  (∀ j, j ≠ i →
     getBookmark (bookmarks (updateBookmark i metadata state)) j
     = getBookmark (bookmarks state) j) ∧
  getBookmark (bookmarks (updateBookmark i metadata state)) i
  = (λ b, mkBookmark (iri b) (spreadField (label b) (mLabel metadata))
            (spreadField (description b) (mDescription metadata))
            (spreadField (hint b) (mHint metadata)) (addedAt b))
    <$> getBookmark (bookmarks state) i ∧
  (isBookmarked (bookmarks state) i = false →
     updateBookmark i metadata state = state) ∧
  fieldStates (updateBookmark i metadata state) = fieldStates state ∧
  lastFocusedInputId (updateBookmark i metadata state) = lastFocusedInputId state.
Proof.
  split_and!; try done.
  - apply updateBookmark_iris.
  - unfold updateBookmark. simpl. rewrite <- list_fmap_compose.
    apply list_fmap_ext. intros k b _. simpl. by case_decide.
  - intros j Hj. unfold updateBookmark. simpl.
    induction (bookmarks state) as [|b bs IH]; [done|].
    rewrite fmap_cons, !getBookmark_cons, IH.
    destruct (decide (iri b = i)); simpl; [|done].
    rewrite !decide_False by congruence. done.
  - unfold updateBookmark. simpl.
    induction (bookmarks state) as [|b bs IH]; [done|].
    rewrite fmap_cons, !getBookmark_cons, IH.
    destruct (decide (iri b = i)) as [Hb|Hb]; simpl.
    + by rewrite decide_True.
    + by rewrite decide_False.
  - intros Hb. apply isBookmarked_false in Hb. unfold updateBookmark.
    replace ((λ b, if decide (iri b = i) then _ else b) <$> bookmarks state)
      with (bookmarks state); [by destruct state|].
    induction (bookmarks state) as [|b bs IH]; [done|].
    rewrite fmap_cons in Hb. apply not_elem_of_cons in Hb as [H1 H2].
    rewrite fmap_cons, decide_False by done. by rewrite <- IH.
Qed.



(** X29 (unregistering an input).  [removeField] drops the value of the
    input and nothing else of the registry; when the input was the last
    focused one the focus is cleared, so a later [fillFocusedInput]
    changes nothing, and any other focus is kept.  Registering a value
    for an unknown input and removing the input restores the
    registry. *)
Theorem removeField_unfocuses inputId i (state : State) :
  fieldStates (removeField inputId state) !! inputId = None ∧
  (∀ other, other ≠ inputId →
     fieldStates (removeField inputId state) !! other
     = fieldStates state !! other) ∧
  bookmarks (removeField inputId state) = bookmarks state ∧
  (lastFocusedInputId state = Some inputId →
     lastFocusedInputId (removeField inputId state) = None ∧
     fillFocusedInput i (removeField inputId state) = removeField inputId state) ∧
  (lastFocusedInputId state ≠ Some inputId →
     lastFocusedInputId (removeField inputId state) = lastFocusedInputId state) ∧
  (fieldStates state !! inputId = None →
     ∀ value, fieldStates (removeField inputId (setFieldValue inputId value state))
              = fieldStates state).
Proof.
  split_and!.
  - apply lookup_delete_eq.
  - intros other Ho. by apply lookup_delete_ne.
  - done.
  - intros Hf.
    assert (lastFocusedInputId (removeField inputId state) = None) as Hnone.
    { unfold removeField. cbn [lastFocusedInputId].
      by rewrite bool_decide_eq_true_2. }
    split; [done|]. unfold fillFocusedInput. by rewrite Hnone.
  - intros Hf. unfold removeField. cbn [lastFocusedInputId].
    by rewrite bool_decide_eq_false_2.
  - intros Hn value. unfold removeField, setFieldValue. cbn [fieldStates].
    rewrite delete_insert_eq. by apply delete_id.
Qed.

End BookmarkListFacts.
